(** * Jironaut: request dispatch, bounded retry, rubric scoring and caching

    A shallow embedding of the core of [App.jsx]: the inline mode
    classification and prompt construction of [sendMessage], the result
    cache ([getCachedResult], [setCachedResult]), the rubric scorer
    ([calculateBadgeAndTotal]), the retrying completion client
    ([chatWithRetry]) and the orchestration in [sendMessage].

    Conventions.
    - A JavaScript string is a Rocq [string] holding its UTF-8 bytes.
    - Rubric points are integers ([Z]); the floating-point expression of the
      scorer is written over [Q], where it is exact.
    - Effects are explicit: the React state and the local store are fields
      of a state record, and every function that calls out (the completion
      endpoint, the timer, the store) returns the list of events it caused. *)

From Stdlib Require Import ZArith QArith Qround String Ascii List Bool Lia.
From stdpp Require Import base option list strings pretty gmap fin_maps.
Import ListNotations.

#[local] Open Scope Z_scope.

(* ===================================================================== *)
(** * JavaScript string primitives used by the source *)
(* ===================================================================== *)

Module JsString.

(** The string with the given byte values. *)
Definition bytes (l : list nat) : string :=
  string_of_list_ascii (map ascii_of_nat l).

(** The double quote, for literals of the source that contain one. *)
Definition dq : string := bytes [34%nat].

(** The code points that [String.prototype.trim] removes (ECMAScript
    WhiteSpace and LineTerminator), each as its UTF-8 byte sequence:
    U+0009..U+000D, U+0020, U+00A0, U+1680, U+2000..U+200A, U+2028, U+2029,
    U+202F, U+205F, U+3000, U+FEFF. *)
Definition white_space : list (list ascii) :=
  map (map ascii_of_nat)
    [ [9]; [10]; [11]; [12]; [13]; [32];
      [194; 160];
      [225; 154; 128];
      [226; 128; 128]; [226; 128; 129]; [226; 128; 130]; [226; 128; 131];
      [226; 128; 132]; [226; 128; 133]; [226; 128; 134]; [226; 128; 135];
      [226; 128; 136]; [226; 128; 137]; [226; 128; 138];
      [226; 128; 168]; [226; 128; 169]; [226; 128; 175];
      [226; 129; 159];
      [227; 128; 128];
      [239; 187; 191] ]%nat.

(** [drop_prefix p l] is the rest of [l] after its prefix [p], if [p] is one. *)
Fixpoint drop_prefix (p l : list ascii) : option (list ascii) :=
  match p, l with
  | [], _ => Some l
  | a :: p', b :: l' => if Ascii.eqb a b then drop_prefix p' l' else None
  | _ :: _, [] => None
  end.

(** The rest of [l] after one of the sequences [ps], if [l] starts with one. *)
Fixpoint drop_any (ps : list (list ascii)) (l : list ascii) : option (list ascii) :=
  match ps with
  | [] => None
  | p :: ps' =>
      match drop_prefix p l with
      | Some r => Some r
      | None => drop_any ps' l
      end
  end.

Fixpoint skip_fuel (ps : list (list ascii)) (fuel : nat) (l : list ascii) : list ascii :=
  match fuel with
  | O => l
  | S fuel' =>
      match drop_any ps l with
      | Some r => skip_fuel ps fuel' r
      | None => l
      end
  end.

(** Remove leading occurrences of the sequences [ps] for as long as there
    is one; every removal shortens the list, so its length is enough fuel. *)
Definition skip (ps : list (list ascii)) (l : list ascii) : list ascii :=
  skip_fuel ps (length l) l.

Definition trimStart_bytes (l : list ascii) : list ascii := skip white_space l.

Definition trimEnd_bytes (l : list ascii) : list ascii :=
  rev (skip (map (@rev ascii) white_space) (rev l)).

Definition trim_bytes (l : list ascii) : list ascii :=
  trimEnd_bytes (trimStart_bytes l).

(** [s.trim()] *)
Definition trim (s : string) : string :=
  string_of_list_ascii (trim_bytes (list_ascii_of_string s)).

(** Does [s] begin, or end, with a white space character? *)
Definition leading_space (s : string) : bool :=
  bool_decide (is_Some (drop_any white_space (list_ascii_of_string s))).

Definition trailing_space (s : string) : bool :=
  bool_decide (is_Some (drop_any (map (@rev ascii) white_space)
                                 (rev (list_ascii_of_string s)))).

Definition lower_char (c : ascii) : ascii :=
  let n := nat_of_ascii c in
  if ((65 <=? n) && (n <=? 90))%nat then ascii_of_nat (n + 32) else c.

(** [s.toLowerCase()]. The letters A to Z are mapped; a letter outside
    ASCII is kept as it is. No character outside ASCII has a lower-case form
    that contains one of the letters of the two mode prefixes, so the prefix
    tests of the source give the same answer on this function as on the
    full Unicode mapping. *)
Fixpoint toLowerCase (s : string) : string :=
  match s with
  | EmptyString => EmptyString
  | String c s' => String (lower_char c) (toLowerCase s')
  end.

(** [s.startsWith(p)] *)
Definition startsWith (s p : string) : bool := String.prefix p s.

(** [s.slice(n)] for [0 <= n]. *)
Fixpoint slice (n : nat) (s : string) : string :=
  match n, s with
  | O, _ => s
  | S n', String _ s' => slice n' s'
  | S _, EmptyString => EmptyString
  end.

(** [s.slice(0, n)] for [0 <= n]. *)
Fixpoint take (n : nat) (s : string) : string :=
  match n, s with
  | S n', String c s' => String c (take n' s')
  | _, _ => EmptyString
  end.

(** [s.includes(needle)] *)
Fixpoint includes (s needle : string) : bool :=
  String.prefix needle s ||
  match s with
  | EmptyString => false
  | String _ s' => includes s' needle
  end.

End JsString.

Import JsString.

(* ===================================================================== *)
(** * Mode classification and prompts (inline in [sendMessage]) *)
(* ===================================================================== *)

(** The three branches of the prefix test. *)
Inductive Mode := Draft | Score | Unsupported.

#[global] Instance Mode_eq_dec : EqDecision Mode.
Proof. solve_decision. Defined.

(** [cleanedInput] and the branch taken, as [sendMessage] computes them. *)
Definition classify (input : string) : Mode * string :=
  let cleanedInput := trim input in
  if startsWith (toLowerCase cleanedInput) "draft:" then
    (Draft, trim (slice 6 cleanedInput))
  else if startsWith (toLowerCase cleanedInput) "score:" then
    (Score, trim (slice 6 cleanedInput))
  else
    (Unsupported, cleanedInput).

Definition base_system_content : string :=
  "You are Jironaut, a Jira co-pilot. You ONLY help with writing, scoring, and improving Jira tickets. You never answer unrelated questions. Always respond in a structured way: either as a draft Jira ticket or as a scoring report.".

Definition score_system_suffix : string :=
  "
You are Jironaut, a Jira ticket reviewer. " +:+ "
Score tickets against 8 criteria (total 100 points):
- Title clarity (10), Description completeness (15), Benefit Hypothesis (20), Leading Indicators (15),
  Strategic alignment (10), Risk/Impact (10), Dependencies (10), Scope clarity (10).
Return JSON with: individual scores, total %, one badge, one positive note, one area to improve, " +:+ "
and ask if user wants rewrite.
Badges:
- Visionary Thinker 🌟: Benefit+Alignment+Indicators ≥ 40/45
- Feature Architect 🧠: Total ≥ 85%
- Clarity Champion 🥇: Title+Description+Scope ≥ 30/35
- Risk Wrangler ⚖️: Risk+Dependencies ≥ 15/20
".

Definition draft_prompt : string :=
  "Draft a Jira ticket from the following brief. " +:+ "
Return JSON with:
- title (≤80 chars, action + context)
- description_markdown (with sections: Why, What, Constraints)
- acceptance_criteria (4–8 Gherkin-style items)
- labels (≤5, kebab-case)
Rules:
- If details are missing, add a " +:+ dq +:+ "Questions" +:+ dq +:+ " section at the end.
- Include risk_notes, qa_checks, and assumptions if relevant.
- Keep tone clear, concise, and Jira-ready.
".

(** [systemMessage.content] after the branch. *)
Definition systemContent (mode : Mode) : string :=
  match mode with
  | Score => base_system_content +:+ score_system_suffix
  | _ => base_system_content
  end.

(** [modePrompt] after the branch. *)
Definition modePrompt (mode : Mode) : string :=
  match mode with
  | Draft => draft_prompt
  | Score => "Evaluate the following Jira ticket:"
  | Unsupported => "Only Jira-related drafting and scoring tasks are supported."
  end.

(* ===================================================================== *)
(** * Rubric scorer: [calculateBadgeAndTotal] *)
(* ===================================================================== *)

Module Rubric.

(** The object returned by the scorer; [badge = None] is JavaScript [null]. *)
Record ScoreResult := { total : Z; badge : option string }.

(** The four labels, as the source writes them (each ends with its emoji). *)
Definition VisionaryThinker : string := "Visionary Thinker 🌟".
Definition FeatureArchitect : string := "Feature Architect 🧠".
Definition ClarityChampion : string := "Clarity Champion 🥇".
Definition RiskWrangler : string := "Risk Wrangler ⚖️".


(** [Math.round]: the nearest integer, a half going up. The source rounds a
    double; on the integers of the rubric the double is within a rounding
    error of the rational written here, and [Math.round] gives the same
    integer. *)
Definition Math_round (x : Q) : Z := Qfloor (x + (1 # 2)).

(** [scores[k] || 0]: an absent key reads [undefined], and [0] is falsy. *)
Definition or_zero (v : option Z) : Z :=
  match v with
  | Some n => if n =? 0 then 0 else n
  | None => 0
  end.

(** [for (let k in scores) obtained += scores[k]], from [obtained = 0]. *)
Definition obtained (scores : gmap string Z) : Z :=
  map_fold (λ _ v acc, acc + v) 0 scores.

Definition benefit (scores : gmap string Z) : Z :=
  or_zero (scores !! "Benefit Hypothesis") + or_zero (scores !! "Strategic alignment")
  + or_zero (scores !! "Leading Indicators").

Definition clarity (scores : gmap string Z) : Z :=
  or_zero (scores !! "Title clarity") + or_zero (scores !! "Description completeness")
  + or_zero (scores !! "Scope clarity").

Definition riskDeps (scores : gmap string Z) : Z :=
  or_zero (scores !! "Risk/Impact") + or_zero (scores !! "Dependencies").

Definition calculateBadgeAndTotal (scores : gmap string Z) : ScoreResult :=
  let totalPoints := 100 in
  let total := Math_round ((inject_Z (obtained scores) / inject_Z totalPoints) * 100)%Q in
  let badge : option string := None in
  let badge := if 40 <=? benefit scores then Some VisionaryThinker else badge in
  let badge := if 85 <=? total then Some FeatureArchitect else badge in
  let badge := if 30 <=? clarity scores then Some ClarityChampion else badge in
  let badge := if 15 <=? riskDeps scores then Some RiskWrangler else badge in
  {| total := total; badge := badge |}.

(** The scorer in the words of the specification. A criterion absent from
    the mapping counts 0; the total is the sum of all values; the badge rules
    are an ordered list of (predicate, label), every match overwriting the
    running result. *)
Definition points (scores : gmap string Z) (criterion : string) : Z :=
  default 0 (scores !! criterion).

Definition sum_of_values (scores : gmap string Z) : Z :=
  foldr Z.add 0 (snd <$> map_to_list scores).

Definition badge_rules (scores : gmap string Z) (total : Z) : list (bool * string) :=
  [ (40 <=? points scores "Benefit Hypothesis" + points scores "Strategic alignment"
            + points scores "Leading Indicators",
     VisionaryThinker);
    (85 <=? total, FeatureArchitect);
    (30 <=? points scores "Title clarity" + points scores "Description completeness"
            + points scores "Scope clarity",
     ClarityChampion);
    (15 <=? points scores "Risk/Impact" + points scores "Dependencies",
     RiskWrangler) ].

Definition last_match (rules : list (bool * string)) : option string :=
  fold_left (λ (acc : option string) (r : bool * string),
               if fst r then Some (snd r) else acc) rules None.

(** Every criterion at its maximum. *)
Definition full_marks : gmap string Z :=
  list_to_map
    [ ("Title clarity", 10); ("Description completeness", 15);
      ("Benefit Hypothesis", 20); ("Leading Indicators", 15);
      ("Strategic alignment", 10); ("Risk/Impact", 10);
      ("Dependencies", 10); ("Scope clarity", 10) ].

End Rubric.

Import Rubric.

(* ===================================================================== *)
(** * Completion client with retry: [chatWithRetry] *)
(* ===================================================================== *)

(** What a rejected call carries: [err.message] and [err.status], either of
    which may be missing. *)
Record JsError := { message : option string; status : option Z }.

(** A completion; [choice_content] is [response.choices[0].message.content]. *)
Record Response := { choice_content : string }.

(** The fate of one call of [client.chat.completions.create]. *)
Inductive Outcome :=
| Resolves (response : Response)
| Rejects (err : JsError).

(** Calls that leave the program: the completion endpoint, the timer and
    the local store. *)
Inductive Event :=
| Create (attempt : nat)
| SetTimeout (ms : Z)
| CacheGet (key : string)
| CachePut (key text : string).

(** How [chatWithRetry] ends: [return], [throw], or leaving the loop with
    nothing returned ([undefined]). *)
Inductive Completion :=
| Returned (response : Response)
| Threw (err : JsError)
| LoopExit.

(** [String(err?.message || '')] *)
Definition error_text (err : JsError) : string := default EmptyString (message err).

Definition quota_phrase : string := "check your plan and billing".

(** [new Error("OpenAI: quota/billing exceeded. ...")] *)
Definition billing_exceeded : JsError :=
  {| message := Some "OpenAI: quota/billing exceeded. Add billing to your account.";
     status := None |}.

(** The [for] loop of [chatWithRetry], entered at [attempt] with [rounds]
    iterations of [attempt <= retries] still to come. [create n] is the
    endpoint's answer to the call made at attempt [n]; [retries] is a count
    (the source passes the default 3). *)
Fixpoint retry_loop (create : nat → Outcome) (retries : nat) (baseDelayMs : Z)
    (rounds attempt : nat) : Completion * list Event :=
  match rounds with
  | O => (LoopExit, [])
  | S rounds' =>
      match create attempt with
      | Resolves response => (Returned response, [Create attempt])
      | Rejects err =>
          let msg := error_text err in
          if includes msg quota_phrase then
            (Threw billing_exceeded, [Create attempt])
          else if bool_decide (status err = Some 429) && (attempt <? retries)%nat then
            let delay := baseDelayMs * 2 ^ Z.of_nat attempt in
            let '(result, events) :=
              retry_loop create retries baseDelayMs rounds' (S attempt) in
            (result, Create attempt :: SetTimeout delay :: events)
          else
            (Threw err, [Create attempt])
      end
  end.

Definition chatWithRetry (create : nat → Outcome) (retries : nat) (baseDelayMs : Z)
    : Completion * list Event :=
  retry_loop create retries baseDelayMs (S retries) 0.

(** The calls of the completion endpoint in a trace, by attempt number, and
    how many they are. *)
Definition attempts (events : list Event) : list nat :=
  omap (λ e, match e with Create n => Some n | _ => None end) events.

Definition calls (events : list Event) : nat := length (attempts events).

(** The waits of a trace, in order. *)
Definition delays (events : list Event) : list Z :=
  omap (λ e, match e with SetTimeout ms => Some ms | _ => None end) events.

(** The store writes of a trace. *)
Definition writes (events : list Event) : list (string * string) :=
  omap (λ e, match e with CachePut k t => Some (k, t) | _ => None end) events.

(** A rejection whose [status] is 429. *)
Definition rejects_429 (o : Outcome) : bool :=
  match o with
  | Rejects err => bool_decide (status err = Some 429)
  | Resolves _ => false
  end.

(** A rejection whose message holds the quota phrase. *)
Definition names_quota (o : Outcome) : bool :=
  match o with
  | Rejects err => includes (error_text err) quota_phrase
  | Resolves _ => false
  end.

(** An endpoint that answers every call with the quota error of the
    completion service: status 429 and the quota phrase in the message. *)
Definition quota_429 (attempt : nat) : Outcome :=
  Rejects {| message := Some "You exceeded your current quota, please check your plan and billing details.";
             status := Some 429 |}.

(** An endpoint that answers every call with a plain rate-limit error. *)
Definition busy_429 (attempt : nat) : Outcome :=
  Rejects {| message := Some "Rate limit reached for requests"; status := Some 429 |}.

(* ===================================================================== *)
(** * JSON values, [JSON.stringify], and the view of [scores] *)
(* ===================================================================== *)

(** A parsed JSON text. A number that is a safe integer (at most 2^53 - 1
    in absolute value) is [JNum n]; every other number (one with a fraction,
    or a larger one) is [JReal text], with the text that [JSON.stringify]
    writes for it, which names the number. An object keeps its properties
    in insertion order, each key once. *)
#[local] Unset Elimination Schemes.
Inductive JsValue :=
| JNull
| JBool (b : bool)
| JNum (n : Z)
| JReal (text : string)
| JStr (s : string)
| JArr (items : list JsValue)
| JObj (props : list (string * JsValue)).
#[local] Set Elimination Schemes.

(** JavaScript truthiness, as tested by [if (v)]. *)
Definition truthy (v : JsValue) : bool :=
  match v with
  | JNull => false
  | JBool b => b
  | JNum n => negb (n =? 0)
  | JReal _ => true
  | JStr s => negb (String.eqb s EmptyString)
  | JArr _ | JObj _ => true
  end.

(** [obj[k]] on own properties. *)
Fixpoint get_prop (k : string) (props : list (string * JsValue)) : option JsValue :=
  match props with
  | [] => None
  | (k', v) :: rest => if String.eqb k k' then Some v else get_prop k rest
  end.

(** [obj[k] = v]: an existing property keeps its place, a new one goes last. *)
Fixpoint set_prop (k : string) (v : JsValue) (props : list (string * JsValue))
    : list (string * JsValue) :=
  match props with
  | [] => [(k, v)]
  | (k', v') :: rest =>
      if String.eqb k k' then (k, v) :: rest else (k', v') :: set_prop k v rest
  end.

Definition as_integer (v : JsValue) : option Z :=
  match v with
  | JNum n => Some n
  | _ => None
  end.

(** The rubric mapping held by a [scores] value: an object all of whose
    properties are integers. On any other truthy value the additions of the
    scorer leave the integers (string concatenation, [NaN]); the embedding
    stops there. *)
Definition as_scores (v : JsValue) : option (gmap string Z) :=
  match v with
  | JObj props =>
      list_to_map <$>
        mapM (λ kv : string * JsValue, (λ n, (fst kv, n)) <$> as_integer (snd kv)) props
  | _ => None
  end.

Definition hex_digit (n : nat) : ascii :=
  ascii_of_nat (if (n <? 10)%nat then 48 + n else 87 + n).

(** One character inside a JSON string literal. *)
Definition escape_char (c : ascii) : string :=
  let n := nat_of_ascii c in
  let backslash := bytes [92%nat] in
  if (n =? 34)%nat then backslash +:+ dq
  else if (n =? 92)%nat then backslash +:+ backslash
  else if (n =? 8)%nat then backslash +:+ "b"
  else if (n =? 9)%nat then backslash +:+ "t"
  else if (n =? 10)%nat then backslash +:+ "n"
  else if (n =? 12)%nat then backslash +:+ "f"
  else if (n =? 13)%nat then backslash +:+ "r"
  else if (n <? 32)%nat then
    backslash +:+ "u00"
      +:+ String (hex_digit (n / 16)) (String (hex_digit (n mod 16)) EmptyString)
  else String c EmptyString.

Definition quote (s : string) : string :=
  dq +:+ String.concat EmptyString (map escape_char (list_ascii_of_string s)) +:+ dq.

(** [JSON.stringify(v)] without indentation. *)
Fixpoint JSON_stringify (v : JsValue) : string :=
  match v with
  | JNull => "null"
  | JBool b => if b then "true" else "false"
  | JNum n => pretty.pretty n
  | JReal text => text
  | JStr s => quote s
  | JArr items => "[" +:+ String.concat "," (map JSON_stringify items) +:+ "]"
  | JObj props =>
      "{" +:+ String.concat ","
                (map (λ kv : string * JsValue,
                        quote (fst kv) +:+ ":" +:+ JSON_stringify (snd kv)) props)
          +:+ "}"
  end.

(** A parser that knows the given values and nothing else: it reads back
    the serialisation of each of them and rejects every other text. It
    stands for [JSON.parse] where a run of the model needs one. *)
Definition parse_known (known : list JsValue) (text : string) : option JsValue :=
  List.find (λ v, String.eqb (JSON_stringify v) text) known.

(* ===================================================================== *)
(** * The result cache: [getCachedResult], [setCachedResult] *)
(* ===================================================================== *)

(** The store entry [jironautCache] is modelled by the mapping it encodes.
    The mapping is read into a plain object, so a key that names a member of
    [Object.prototype] and has no entry of its own still reads a value. *)
Definition Object_prototype : list string :=
  [ "constructor"; "__defineGetter__"; "__defineSetter__"; "hasOwnProperty";
    "__lookupGetter__"; "__lookupSetter__"; "isPrototypeOf";
    "propertyIsEnumerable"; "toString"; "valueOf"; "__proto__";
    "toLocaleString" ].

(** What [cache[input]] reads. *)
Inductive Lookup :=
| Own (text : string)
| Inherited (member : string)
| Missing.

Definition getCachedResult (cache : gmap string string) (input : string) : Lookup :=
  match cache !! input with
  | Some text => Own text
  | None =>
      if bool_decide (input ∈ Object_prototype) then Inherited input else Missing
  end.

(** [cache[input] = result], then the store is rewritten. Assigning a string
    to an inherited [__proto__] changes nothing. *)
Definition setCachedResult (cache : gmap string string) (input result : string)
    : gmap string string :=
  if bool_decide (input = "__proto__") && bool_decide (cache !! input = None)
  then cache
  else <[input := result]> cache.

(* ===================================================================== *)
(** * The conversation and [sendMessage] *)
(* ===================================================================== *)

Inductive Role := system | user | assistant.

#[global] Instance Role_eq_dec : EqDecision Role.
Proof. solve_decision. Defined.

(** The [content] of a message: a text, or (after an inherited cache read)
    a member of [Object.prototype]. *)
Inductive Content :=
| Text (s : string)
| Member (name : string).

Record Message := { role : Role; content : Content }.

(** The argument of [client.chat.completions.create]. *)
Record Payload := {
  model : string;
  payload_messages : list Message;
  response_format : string;
  temperature : Z
}.

(** The component state ([messages], [input], [isLoading]) and the store. *)
Record State := {
  messages : list Message;
  input : string;
  isLoading : bool;
  jironautCache : gmap string string
}.

Definition quota_text : string :=
  "⚠️ OpenAI says your quota is exceeded. Add a payment method or top up credits.".

Definition hurry_text : string :=
  "⚠️ We’re sending requests too quickly. Please wait a moment and try again.".

(** [humanMessage] of the outer [catch]. *)
Definition humanMessage (err : JsError) : string :=
  if includes (error_text err) "billing" then quota_text else hurry_text.

(** The [TypeError] of [response.choices] on [undefined]. *)
Definition undefined_response : JsError :=
  {| message := Some "Cannot read properties of undefined (reading 'choices')";
     status := None |}.

(** [if (cached)]: the content shown on a hit, [None] on a falsy read. *)
Definition cached_content (read : Lookup) : option Content :=
  match read with
  | Own text => if String.eqb text EmptyString then None else Some (Text text)
  | Inherited member => Some (Member member)
  | Missing => None
  end.

(** [newMessages] *)
Definition newMessages (st : State) (mode : Mode) (cleanedInput : string) : list Message :=
  {| role := system; content := Text (systemContent mode) |}
    :: filter (λ m, role m ≠ system) (messages st)
    ++ [ {| role := user;
            content := Text (modePrompt mode +:+ bytes [10; 10]%nat +:+ cleanedInput) |} ].

Definition reply (content : Content) : Message :=
  {| role := assistant; content := content |}.

(** The payload that [sendMessage] hands to [chatWithRetry]. *)
Definition completion_request (newMessages : list Message) : Payload :=
  {| model := "gpt-4o-mini";
     payload_messages := newMessages;
     response_format := "json_object";
     temperature := 0 |}.

(** [JSON.parse(aiMessage)] and the test [if (parsed.scores)] of the inner
    [try]: the parsed object and its [scores] when the scored branch is
    entered. The branch is not entered when the parser throws, when
    [parsed.scores] is [undefined] (no such property, or [parsed] is an
    array, a string, a number or a boolean), when reading it throws
    ([parsed] is [null]; the inner [catch] takes the error), and when it is
    falsy. *)
Definition scored_branch (JSON_parse : string → option JsValue) (aiMessage : string)
    : option (list (string * JsValue) * JsValue) :=
  match JSON_parse aiMessage with
  | Some (JObj props) =>
      match get_prop "scores" props with
      | Some scores => if truthy scores then Some (props, scores) else None
      | None => None
      end
  | _ => None
  end.

(** [parsed] after [parsed.total = total; parsed.badge = badge]. *)
Definition with_score (props : list (string * JsValue)) (result : ScoreResult)
    : list (string * JsValue) :=
  set_prop "badge" (match badge result with Some b => JStr b | None => JNull end)
    (set_prop "total" (JNum (total result)) props).

(** One run of [sendMessage]: the state it leaves and the calls it made.
    [JSON_parse] is the platform's parser ([None] when it throws) and
    [client payload n] the endpoint's answer to the call of attempt [n].
    The result is [None] only where [as_scores] is. *)
Definition sendMessage (JSON_parse : string → option JsValue)
    (client : Payload → nat → Outcome) (st : State) : option (State * list Event) :=
  if String.eqb (trim (input st)) EmptyString || isLoading st then Some (st, [])
  else
    let '(mode, cleanedInput) := classify (input st) in
    let newMessages := newMessages st mode cleanedInput in
    let finish (shown : string) (cache : gmap string string) (events : list Event) :=
      Some ({| messages := newMessages ++ [reply (Text shown)];
               input := EmptyString;
               isLoading := false;
               jironautCache := cache |}, CacheGet cleanedInput :: events) in
    match cached_content (getCachedResult (jironautCache st) cleanedInput) with
    | Some cached =>
        Some ({| messages := newMessages ++ [reply cached];
                 input := EmptyString;
                 isLoading := isLoading st;
                 jironautCache := jironautCache st |}, [CacheGet cleanedInput])
    | None =>
        let '(completion, events) :=
          chatWithRetry (client (completion_request newMessages)) 3 800 in
        match completion with
        | Returned response =>
            let aiMessage := choice_content response in
            match scored_branch JSON_parse aiMessage with
            | Some (props, scores) =>
                match as_scores scores with
                | Some mapping =>
                    let finalMessage :=
                      JSON_stringify
                        (JObj (with_score props (calculateBadgeAndTotal mapping))) in
                    finish finalMessage
                      (setCachedResult (jironautCache st) cleanedInput finalMessage)
                      (events ++ [CachePut cleanedInput finalMessage])
                | None => None
                end
            | None => finish aiMessage (jironautCache st) events
            end
        | Threw err => finish (humanMessage err) (jironautCache st) events
        | LoopExit => finish (humanMessage undefined_response) (jironautCache st) events
        end
    end.

(** The state that a run leaves when it shows [shown] and holds [cache]. *)
Definition shows (st : State) (mode : Mode) (cleanedInput : string)
    (shown : Content) (cache : gmap string string) : State :=
  {| messages := newMessages st mode cleanedInput ++ [reply shown];
     input := EmptyString;
     isLoading := false;
     jironautCache := cache |}.

(** A state with no history, the given text in the input box and the given
    store. *)
Definition fresh (text : string) (cache : gmap string string) : State :=
  {| messages := []; input := text; isLoading := false; jironautCache := cache |}.

(** [setInput(text)] *)
Definition setInput (st : State) (text : string) : State :=
  {| messages := messages st;
     input := text;
     isLoading := isLoading st;
     jironautCache := jironautCache st |}.

(** An endpoint that resolves every call with the given text, and one that
    rejects every call with the given error. *)
Definition answers (text : string) : Payload → nat → Outcome :=
  λ _ _, Resolves {| choice_content := text |}.

Definition fails (err : JsError) : Payload → nat → Outcome :=
  λ _ _, Rejects err.


Definition risk_report : JsValue :=
  JObj [("scores", JObj [("Risk/Impact", JNum 10); ("Dependencies", JNum 10)]);
        ("total", JNum 95); ("note", JStr "ok")].

(* ===================================================================== *)
(** * Further parts of the source *)
(* ===================================================================== *)

(** ** The credential at module scope: [getApiKey] and the prompt *)

(** [v && v.trim().length > 0], and then [v.trim()]: the trimmed value of a
    setting that is present and not blank. *)
Definition usable (v : option string) : option string :=
  match v with
  | Some s => if String.eqb (trim s) EmptyString then None else Some (trim s)
  | None => None
  end.

(** [getApiKey()], from the build-time setting [VITE_OPENAI_API_KEY] and
    the store entry [OPENAI_API_KEY]. *)
Definition getApiKey (fromEnv fromStorage : option string) : option string :=
  match usable fromEnv with
  | Some key => Some key
  | None =>
      match usable fromStorage with
      | Some key => Some key
      | None => None
      end
  end.

(** What the module-scope code leaves: the key, the store entry, whether
    [window.prompt] was shown and whether the missing key was reported. *)
Record Startup := {
  apiKey : option string;
  OPENAI_API_KEY : option string;
  prompted : bool;
  reported_missing : bool
}.

(** The module-scope code before the client is built; [entered] is what the
    prompt returns when it is shown ([None] when it is dismissed). *)
Definition startup (fromEnv fromStorage entered : option string) : Startup :=
  match getApiKey fromEnv fromStorage with
  | Some key =>
      {| apiKey := Some key; OPENAI_API_KEY := fromStorage;
         prompted := false; reported_missing := false |}
  | None =>
      match usable entered with
      | Some key =>
          {| apiKey := Some key; OPENAI_API_KEY := Some key;
             prompted := true; reported_missing := false |}
      | None =>
          {| apiKey := None; OPENAI_API_KEY := fromStorage;
             prompted := true; reported_missing := true |}
      end
  end.

(** ** The rubric as the source states it in its scoring prompt *)



(** ** The message list of the page *)

Inductive Color := red | orange | green.

(** [scoreColor] for [parsed.total]; [None] as argument is [undefined]. The
    comparisons convert [null] to 0 and a boolean to 0 or 1. A string, an
    array or an object is converted through its text, which the embedding
    leaves out: the result is [None] there. *)
Definition scoreColor (total : option JsValue) : option Color :=
  match total with
  | None => Some red
  | Some JNull => Some red
  | Some (JBool _) => Some red
  | Some (JNum n) => Some (if 85 <=? n then green else if 70 <=? n then orange else red)
  | Some _ => None
  end.

(** [parsed[k]] for a key that no prototype defines: the own property of
    an object, [undefined] on an array, a string, a number or a boolean. *)
Definition own_prop (k : string) (parsed : JsValue) : option JsValue :=
  match parsed with
  | JObj props => get_prop k props
  | _ => None
  end.

(** Can React draw [v] as the child of an element? A string or a number is
    drawn as its text, [null] and a boolean draw nothing, and an array draws
    its items; a plain object is no valid child, and the render throws. *)
Fixpoint valid_child (v : JsValue) : bool :=
  match v with
  | JObj _ => false
  | JArr items => forallb valid_child items
  | _ => true
  end.

(** The child [{parsed.total}] or [{parsed.badge}], which is drawn only when
    the property is not [undefined]. *)
Definition drawable (property : option JsValue) : bool :=
  match property with
  | Some v => valid_child v
  | None => true
  end.

(** The child [{msg.content}]. Every member of [Object.prototype] is a
    function, which React leaves out, but for [__proto__], which reads the
    prototype itself: an object. *)
Definition drawable_content (c : Content) : bool :=
  match c with
  | Text _ => true
  | Member name => negb (String.eqb name "__proto__")
  end.

(** What the page draws for one message. *)
Inductive Bubble :=
| FromUser (content : Content)
| Report (parsed : JsValue) (total : option JsValue) (color : option Color)
    (badge : option JsValue)
| Plain (content : Content).

(** The body of [map] in the message list; [None] when drawing the bubble
    throws. For an assistant message the content is parsed; when that
    throws, or when reading [parsed.total] throws ([parsed] is [null]), the
    [catch] draws the content as it is. A content that is no string is
    converted to text first, and the text of a member of [Object.prototype]
    is no JSON. The children are drawn after the [try] has been left, so an
    object among them is not caught. *)
Definition bubble (JSON_parse : string → option JsValue) (msg : Message)
    : option Bubble :=
  match role msg with
  | assistant =>
      match content msg with
      | Text s =>
          match JSON_parse s with
          | None | Some JNull => Some (Plain (content msg))
          | Some parsed =>
              if drawable (own_prop "total" parsed) && drawable (own_prop "badge" parsed)
              then Some (Report parsed (own_prop "total" parsed)
                           (scoreColor (own_prop "total" parsed))
                           (own_prop "badge" parsed))
              else None
          end
      | Member _ =>
          if drawable_content (content msg) then Some (Plain (content msg)) else None
      end
  | _ => if drawable_content (content msg) then Some (FromUser (content msg)) else None
  end.


(** ** The shape of a run of the client *)

(** The calls and waits of [n] rate-limited attempts in a row, the first of
    them attempt [first]. *)
Definition backoff (baseDelayMs : Z) (first n : nat) : list Event :=
  flat_map (λ k, [Create k; SetTimeout (baseDelayMs * 2 ^ Z.of_nat k)]) (seq first n).

(** An answer that the loop meets with a wait and another attempt, if one
    is left: a rejection with status 429 and no quota phrase. *)
Definition rate_limited (o : Outcome) : bool := rejects_429 o && negb (names_quota o).

(** The sum of the waits of a trace. *)
Definition total_wait (events : list Event) : Z := foldr Z.add 0 (delays events).

(** ** Several submissions in a row *)


(** A stored text that is a re-scored report: the serialisation of an
    object whose [total] and [badge] are what the scorer gives on the
    object's own [scores]. *)
Definition rescored_report (text : string) : Prop :=
  ∃ props scores mapping,
    get_prop "scores" props = Some scores
    ∧ as_scores scores = Some mapping
    ∧ text = JSON_stringify (JObj (with_score props (calculateBadgeAndTotal mapping))).


(** [s.trimEnd()] *)
Definition trimEnd (s : string) : string :=
  string_of_list_ascii (trimEnd_bytes (list_ascii_of_string s)).

(** ** Runs of white space *)

(** [run_of ps l]: [l] is a run of the sequences [ps], one after another. *)
Inductive run_of (ps : list (list ascii)) : list ascii → Prop :=
| run_nil : run_of ps []
| run_cons q u : q ∈ ps → run_of ps u → run_of ps (q ++ u).

(** No sequence of [ps] is the beginning of a longer one. *)
Definition prefix_free (ps : list (list ascii)) : Prop :=
  Forall (λ q1, Forall (λ q2, ∀ t, drop_prefix q1 q2 = Some t → t = []) ps) ps.

(** The bytes with which the sequences begin, and the bytes that they hold
    after the first. *)
Definition first_bytes (ps : list (list ascii)) : list ascii := omap head ps.

Definition later_bytes (ps : list (list ascii)) : list ascii := flat_map tail ps.

(* ===================================================================== *)
(** * Facts about the string primitives *)
(* ===================================================================== *)

Section StringFacts.

Implicit Types (p l r : list ascii) (ps : list (list ascii)).

Lemma drop_prefix_Some p l r : drop_prefix p l = Some r → l = p ++ r.
Proof.
  revert l. induction p as [|a p IH]; intros [|b l] H; simpl in *;
    try congruence.
  destruct (Ascii.eqb_spec a b) as [->|]; [|discriminate].
  simpl. f_equal. by apply IH.
Qed.

Lemma drop_prefix_app p r : drop_prefix p (p ++ r) = Some r.
Proof.
  induction p as [|a p IH]; simpl; [done|].
  by rewrite Ascii.eqb_refl.
Qed.

Lemma drop_any_Some ps l r :
  drop_any ps l = Some r → ∃ p, p ∈ ps ∧ l = p ++ r.
Proof.
  induction ps as [|p ps IH]; simpl; [done|].
  destruct (drop_prefix p l) as [r'|] eqn:E.
  - intros [= <-]. exists p. split; [left|by apply drop_prefix_Some].
  - intros H. destruct (IH H) as (q & Hq & ->). exists q. split; [by right|done].
Qed.

Lemma drop_any_starts ps p r : p ∈ ps → is_Some (drop_any ps (p ++ r)).
Proof.
  induction ps as [|q ps IH]; [by intros ?%elem_of_nil|].
  intros [->|Hin]%elem_of_cons; simpl.
  - by rewrite drop_prefix_app.
  - destruct (drop_prefix q (p ++ r)); [done|by apply IH].
Qed.

(** Removing a suffix cannot make a list start with one of [ps]. *)
Lemma drop_any_None_prefix ps l t :
  drop_any ps (l ++ t) = None → drop_any ps l = None.
Proof.
  intros H. destruct (drop_any ps l) as [r|] eqn:E; [|done].
  destruct (drop_any_Some _ _ _ E) as (p & Hp & ->).
  destruct (drop_any_starts ps p (r ++ t) Hp) as [x Hx].
  rewrite <- app_assoc in H. congruence.
Qed.

Lemma skip_fuel_clean ps fuel l :
  Forall (λ p, p ≠ []) ps → (length l ≤ fuel)%nat →
  drop_any ps (skip_fuel ps fuel l) = None.
Proof.
  intros Hne. revert l. induction fuel as [|fuel IH]; intros l Hlen; simpl.
  - destruct l; [|simpl in Hlen; lia].
    destruct (drop_any ps []) as [r|] eqn:E; [|done].
    destruct (drop_any_Some _ _ _ E) as (p & Hp & Heq).
    symmetry in Heq. apply app_eq_nil in Heq as [-> _].
    by eapply Forall_forall in Hne.
  - destruct (drop_any ps l) as [r|] eqn:E; [|done].
    apply IH. destruct (drop_any_Some _ _ _ E) as (p & Hp & ->).
    eapply Forall_forall in Hne; [|done].
    rewrite length_app in Hlen. destruct p; [done|]. simpl in Hlen. lia.
Qed.

Lemma skip_fuel_suffix ps fuel l : ∃ t, l = t ++ skip_fuel ps fuel l.
Proof.
  revert l. induction fuel as [|fuel IH]; intros l; simpl; [by exists []|].
  destruct (drop_any ps l) as [r|] eqn:E; [|by exists []].
  destruct (drop_any_Some _ _ _ E) as (p & _ & ->).
  destruct (IH r) as [t Ht]. exists (p ++ t). rewrite <- app_assoc. by f_equal.
Qed.

Lemma skip_fixed ps l : drop_any ps l = None → skip ps l = l.
Proof. unfold skip. intros H. destruct (length l); simpl; by rewrite ?H. Qed.

Lemma white_space_nonempty : Forall (λ p, p ≠ []) white_space.
Proof. unfold white_space. simpl. repeat constructor; discriminate. Qed.

Lemma rev_white_space_nonempty : Forall (λ p, p ≠ []) (map (@rev ascii) white_space).
Proof. unfold white_space. simpl. repeat constructor; discriminate. Qed.

Lemma trimStart_bytes_clean l : drop_any white_space (trimStart_bytes l) = None.
Proof. apply skip_fuel_clean; [apply white_space_nonempty|done]. Qed.

Lemma trimEnd_bytes_clean l :
  drop_any (map (@rev ascii) white_space) (rev (trimEnd_bytes l)) = None.
Proof.
  unfold trimEnd_bytes. rewrite rev_involutive.
  apply skip_fuel_clean; [apply rev_white_space_nonempty|done].
Qed.

Lemma trimEnd_bytes_prefix l : ∃ t, l = trimEnd_bytes l ++ t.
Proof.
  unfold trimEnd_bytes, skip.
  destruct (skip_fuel_suffix (map (@rev ascii) white_space) (length (rev l)) (rev l))
    as [t Ht].
  exists (rev t). rewrite <- rev_app_distr, <- Ht. by rewrite rev_involutive.
Qed.

Lemma trim_bytes_clean_start l : drop_any white_space (trim_bytes l) = None.
Proof.
  unfold trim_bytes.
  destruct (trimEnd_bytes_prefix (trimStart_bytes l)) as [t Ht].
  apply (drop_any_None_prefix _ _ t). rewrite <- Ht. apply trimStart_bytes_clean.
Qed.

Lemma trim_bytes_clean_end l :
  drop_any (map (@rev ascii) white_space) (rev (trim_bytes l)) = None.
Proof. apply trimEnd_bytes_clean. Qed.

Lemma trim_bytes_idempotent l : trim_bytes (trim_bytes l) = trim_bytes l.
Proof.
  unfold trim_bytes at 1. unfold trimStart_bytes.
  rewrite skip_fixed by apply trim_bytes_clean_start.
  unfold trimEnd_bytes at 1.
  rewrite skip_fixed by apply trim_bytes_clean_end.
  apply rev_involutive.
Qed.

Lemma trim_idempotent s : trim (trim s) = trim s.
Proof.
  unfold trim. rewrite list_ascii_of_string_of_list_ascii.
  by rewrite trim_bytes_idempotent.
Qed.

Lemma trim_no_leading_space s : leading_space (trim s) = false.
Proof.
  unfold leading_space, trim. rewrite list_ascii_of_string_of_list_ascii.
  rewrite trim_bytes_clean_start. apply bool_decide_eq_false. by intros [? ?].
Qed.

Lemma trim_no_trailing_space s : trailing_space (trim s) = false.
Proof.
  unfold trailing_space, trim. rewrite list_ascii_of_string_of_list_ascii.
  rewrite trim_bytes_clean_end. apply bool_decide_eq_false. by intros [? ?].
Qed.

Lemma take_slice n s : take n s +:+ slice n s = s.
Proof.
  revert s. induction n as [|n IH]; intros [|c s]; try done.
  change (String c (take n s +:+ slice n s) = String c s). by rewrite IH.
Qed.

Lemma length_take n s : (n ≤ String.length s)%nat → String.length (take n s) = n.
Proof.
  revert s. induction n as [|n IH]; intros [|c s]; simpl; try done; try lia.
  intros H. rewrite IH; lia.
Qed.

(** A prefix found in the lower-cased string is the lower-case form of the
    characters at the same place in the string itself. *)
Lemma startsWith_lower (s pre : string) :
  startsWith (toLowerCase s) pre = true →
  toLowerCase (take (String.length pre) s) = pre
  ∧ (String.length pre ≤ String.length s)%nat.
Proof.
  unfold startsWith. revert s. induction pre as [|a pre IH]; intros s H.
  - simpl. split; [by destruct s|lia].
  - destruct s as [|c s]; simpl in H; [done|].
    destruct (ascii_dec a (lower_char c)) as [->|]; [|done].
    destruct (IH s H) as [E L]. simpl. rewrite E. split; [done|lia].
Qed.

End StringFacts.

(* ===================================================================== *)
(** * Mode classification *)
(* ===================================================================== *)

(** C8. An input whose trimmed, lower-cased form starts with "draft:" is
    classified Draft; its cleaned input is what follows the six characters
    of the prefix in the trimmed input, trimmed again, so the matched prefix
    is gone and no white space surrounds it. An input that matches neither
    prefix is classified Unsupported and its cleaned input is the trimmed
    input. The classification is defined on every string; on the empty one
    it gives Unsupported and the empty string. *)
Theorem classify_draft_and_unsupported :
  (∀ s, startsWith (toLowerCase (trim s)) "draft:" = true →
        classify s = (Draft, trim (slice 6 (trim s)))
        ∧ trim s = take 6 (trim s) +:+ slice 6 (trim s)
        ∧ String.length (take 6 (trim s)) = 6%nat
        ∧ toLowerCase (take 6 (trim s)) = "draft:"
        ∧ trim (snd (classify s)) = snd (classify s)
        ∧ leading_space (snd (classify s)) = false
        ∧ trailing_space (snd (classify s)) = false)
  ∧ (∀ s, startsWith (toLowerCase (trim s)) "draft:" = false →
          startsWith (toLowerCase (trim s)) "score:" = false →
          classify s = (Unsupported, trim s))
  ∧ (∀ s, ∃ mode cleaned, classify s = (mode, cleaned))
  ∧ classify EmptyString = (Unsupported, EmptyString).
Proof.
  split; [|split; [|split; [|done]]].
  - intros s Hdraft.
    assert (Hmode : classify s = (Draft, trim (slice 6 (trim s))))
      by (unfold classify; by rewrite Hdraft).
    destruct (startsWith_lower _ _ Hdraft) as [Hlower Hlen].
    rewrite Hmode. cbn [snd]. repeat split.
    + by rewrite take_slice.
    + by apply length_take.
    + exact Hlower.
    + apply trim_idempotent.
    + apply trim_no_leading_space.
    + apply trim_no_trailing_space.
  - intros s Hdraft Hscore. unfold classify. by rewrite Hdraft, Hscore.
  - intros s. destruct (classify s) as [mode cleaned]. by exists mode, cleaned.
Qed.

(** The theorem at "  DrAfT:  add SSO login  " and at "hello there ". *)
Lemma classify_draft_and_unsupported_witness :
  classify "  DrAfT:  add SSO login  " = (Draft, "add SSO login")
  ∧ classify "hello there " = (Unsupported, "hello there").
Proof.
  split.
  - exact (proj1 (proj1 classify_draft_and_unsupported
                    "  DrAfT:  add SSO login  " eq_refl)).
  - exact (proj1 (proj2 classify_draft_and_unsupported)
             "hello there " eq_refl eq_refl).
Defined.

(* ===================================================================== *)
(** * Rubric scorer *)
(* ===================================================================== *)

Section RubricFacts.

Implicit Types (scores : gmap string Z) (k : string) (v : Z).

Lemma or_zero_default (o : option Z) : or_zero o = default 0 o.
Proof. destruct o as [n|]; simpl; [|done]. by destruct (Z.eqb_spec n 0). Qed.

(** On an integer the percentage of 100 and its rounding change nothing. *)
Lemma Math_round_percent (z : Z) :
  Math_round ((inject_Z z / inject_Z 100) * 100)%Q = z.
Proof.
  unfold Math_round.
  rewrite (Qfloor_comp _ (inject_Z z + (1 # 2))%Q) by (unfold inject_Z; field).
  unfold Qfloor, inject_Z, Qplus; simpl.
  symmetry. apply (Z.div_unique _ _ _ 1); lia.
Qed.

Lemma total_obtained scores : total (calculateBadgeAndTotal scores) = obtained scores.
Proof. unfold calculateBadgeAndTotal. simpl. apply Math_round_percent. Qed.

Lemma obtained_empty : obtained ∅ = 0.
Proof. unfold obtained. by rewrite map_fold_empty. Qed.

Lemma obtained_insert scores k v :
  scores !! k = None → obtained (<[k:=v]> scores) = obtained scores + v.
Proof.
  intros H. unfold obtained.
  rewrite map_fold_insert_L; [done| |done]. intros. lia.
Qed.

Lemma obtained_sum_of_values scores : obtained scores = sum_of_values scores.
Proof.
  unfold sum_of_values.
  induction scores as [|k v scores Hk IH] using map_ind.
  - by rewrite obtained_empty, map_to_list_empty.
  - rewrite obtained_insert by done.
    assert (Hperm : map_to_list (<[k:=v]> scores) ≡ₚ (k, v) :: map_to_list scores)
      by by apply map_to_list_insert.
    assert (Hsum : ∀ l1 l2 : list Z, l1 ≡ₚ l2 → foldr Z.add 0 l1 = foldr Z.add 0 l2).
    { induction 1; simpl; lia. }
    rewrite (Hsum _ (snd <$> (k, v) :: map_to_list scores)) by by rewrite Hperm.
    rewrite IH, fmap_cons. cbn [foldr snd]. lia.
Qed.

(** The badge, read off the four tests from the last to the first. *)
Lemma badge_cases scores :
  badge (calculateBadgeAndTotal scores) =
    if 15 <=? riskDeps scores then Some RiskWrangler
    else if 30 <=? clarity scores then Some ClarityChampion
    else if 85 <=? total (calculateBadgeAndTotal scores) then Some FeatureArchitect
    else if 40 <=? benefit scores then Some VisionaryThinker
    else None.
Proof.
  unfold calculateBadgeAndTotal; simpl.
  by destruct (15 <=? riskDeps scores), (30 <=? clarity scores).
Qed.

Lemma subtotals_points scores :
  benefit scores = points scores "Benefit Hypothesis" + points scores "Strategic alignment"
                   + points scores "Leading Indicators"
  ∧ clarity scores = points scores "Title clarity" + points scores "Description completeness"
                     + points scores "Scope clarity"
  ∧ riskDeps scores = points scores "Risk/Impact" + points scores "Dependencies".
Proof. unfold benefit, clarity, riskDeps, points. by rewrite !or_zero_default. Qed.


End RubricFacts.

(** C1. The badge is decided by the four rules taken in their fixed order,
    each match overwriting the badge, so that the last rule that matches
    gives the badge and no match gives none; the total is the sum of all
    values. With Risk/Impact 10 and Dependencies 10 and nothing else (or
    every other criterion at 0) the total is 20 and the badge is Risk
    Wrangler. *)
Theorem badge_last_match_wins :
  (∀ scores : gmap string Z,
     total (calculateBadgeAndTotal scores) = sum_of_values scores
     ∧ badge (calculateBadgeAndTotal scores)
       = last_match (badge_rules scores (total (calculateBadgeAndTotal scores)))
     ∧ badge (calculateBadgeAndTotal scores)
       = (if 15 <=? riskDeps scores then Some RiskWrangler
          else if 30 <=? clarity scores then Some ClarityChampion
          else if 85 <=? total (calculateBadgeAndTotal scores) then Some FeatureArchitect
          else if 40 <=? benefit scores then Some VisionaryThinker
          else None))
  ∧ calculateBadgeAndTotal {[ "Risk/Impact" := 10; "Dependencies" := 10 ]}
    = {| total := 20; badge := Some RiskWrangler |}
  ∧ calculateBadgeAndTotal
      (list_to_map
         [ ("Title clarity", 0); ("Description completeness", 0);
           ("Benefit Hypothesis", 0); ("Leading Indicators", 0);
           ("Strategic alignment", 0); ("Risk/Impact", 10);
           ("Dependencies", 10); ("Scope clarity", 0) ])
    = {| total := 20; badge := Some RiskWrangler |}
  ∧ calculateBadgeAndTotal ∅ = {| total := 0; badge := None |}
  ∧ startsWith RiskWrangler "Risk Wrangler" = true.
Proof.
  split; [|by vm_compute].
  intros scores. split; [|split].
  - by rewrite total_obtained, obtained_sum_of_values.
  - destruct (subtotals_points scores) as (Hb & Hc & Hr).
    rewrite badge_cases. unfold badge_rules, last_match. simpl.
    rewrite <- Hb, <- Hc, <- Hr.
    by destruct (15 <=? riskDeps scores), (30 <=? clarity scores),
      (85 <=? total (calculateBadgeAndTotal scores)), (40 <=? benefit scores).
  - apply badge_cases.
Qed.

(** C2, as stated, fails at full marks: Title clarity 10, Description
    completeness 15 and Scope clarity 10 are there, the total is 100, and
    the badge is Risk Wrangler, not Feature Architect. *)
Lemma full_marks_not_feature_architect :
  full_marks !! "Title clarity" = Some 10
  ∧ full_marks !! "Description completeness" = Some 15
  ∧ full_marks !! "Scope clarity" = Some 10
  ∧ total (calculateBadgeAndTotal full_marks) = 100
  ∧ badge (calculateBadgeAndTotal full_marks) = Some RiskWrangler
  ∧ badge (calculateBadgeAndTotal full_marks) ≠ Some FeatureArchitect.
Proof. by vm_compute. Qed.

(** C2, amended. A mapping with Title clarity 10, Description completeness
    15 and Scope clarity 10 whose total is 100 gets Risk Wrangler when
    Risk/Impact + Dependencies is at least 15 and Clarity Champion
    otherwise; it never gets Feature Architect. *)
Theorem clarity_overrides_feature_architect (scores : gmap string Z) :
  scores !! "Title clarity" = Some 10 →
  scores !! "Description completeness" = Some 15 →
  scores !! "Scope clarity" = Some 10 →
  total (calculateBadgeAndTotal scores) = 100 →
  badge (calculateBadgeAndTotal scores)
    = Some (if 15 <=? riskDeps scores then RiskWrangler else ClarityChampion)
  ∧ badge (calculateBadgeAndTotal scores) ≠ Some FeatureArchitect.
Proof.
  intros Ht Hd Hs _.
  assert (Hc : clarity scores = 35) by (unfold clarity; by rewrite Ht, Hd, Hs).
  rewrite badge_cases, Hc.
  by destruct (15 <=? riskDeps scores).
Qed.

(** The amended statement at full marks. *)
Lemma clarity_overrides_feature_architect_witness :
  badge (calculateBadgeAndTotal full_marks)
    = Some (if 15 <=? riskDeps full_marks then RiskWrangler else ClarityChampion)
  ∧ badge (calculateBadgeAndTotal full_marks) ≠ Some FeatureArchitect.
Proof.
  apply (clarity_overrides_feature_architect full_marks); by vm_compute.
Defined.



(* ===================================================================== *)
(** * Completion client *)
(* ===================================================================== *)

Section ClientFacts.

Variables (create : nat → Outcome) (retries : nat) (baseDelayMs : Z).

Lemma attempts_cons_create n events :
  attempts (Create n :: events) = n :: attempts events.
Proof. done. Qed.

Lemma attempts_cons_timeout ms events :
  attempts (SetTimeout ms :: events) = attempts events.
Proof. done. Qed.

Lemma delays_cons_create n events : delays (Create n :: events) = delays events.
Proof. done. Qed.

Lemma delays_cons_timeout ms events :
  delays (SetTimeout ms :: events) = ms :: delays events.
Proof. done. Qed.

(** One iteration of the loop. *)
Lemma retry_loop_step rounds attempt :
  retry_loop create retries baseDelayMs (S rounds) attempt =
    match create attempt with
    | Resolves response => (Returned response, [Create attempt])
    | Rejects err =>
        if includes (error_text err) quota_phrase then
          (Threw billing_exceeded, [Create attempt])
        else if bool_decide (status err = Some 429) && (attempt <? retries)%nat then
          let '(result, events) :=
            retry_loop create retries baseDelayMs rounds (S attempt) in
          (result,
           Create attempt :: SetTimeout (baseDelayMs * 2 ^ Z.of_nat attempt) :: events)
        else (Threw err, [Create attempt])
    end.
Proof. done. Qed.

(** A first rejection that holds the quota phrase ends the run. *)
Lemma chatWithRetry_quota err :
  create 0%nat = Rejects err →
  includes (error_text err) quota_phrase = true →
  chatWithRetry create retries baseDelayMs = (Threw billing_exceeded, [Create 0%nat]).
Proof.
  intros Hfirst Hquota. unfold chatWithRetry. by rewrite retry_loop_step, Hfirst, Hquota.
Qed.

(** An iteration runs for every call, so the calls do not outnumber the
    iterations that the loop header lets through. *)
Lemma retry_loop_calls rounds attempt :
  (calls (retry_loop create retries baseDelayMs rounds attempt).2 ≤ rounds)%nat.
Proof.
  revert attempt. induction rounds as [|rounds IH]; intros attempt; simpl.
  - done.
  - destruct (create attempt) as [response|err]; simpl; [unfold calls; simpl; lia|].
    destruct (includes _ _); [unfold calls; simpl; lia|].
    destruct (_ && _); [|unfold calls; simpl; lia].
    specialize (IH (S attempt)).
    destruct (retry_loop _ _ _ rounds (S attempt)) as [result events].
    unfold calls in *. simpl in *. lia.
Qed.

(** The loop is left by [return] or [throw], never by its header. *)
Lemma retry_loop_no_exit rounds attempt :
  (attempt + rounds = S retries)%nat → (0 < rounds)%nat →
  (retry_loop create retries baseDelayMs rounds attempt).1 ≠ LoopExit.
Proof.
  revert attempt. induction rounds as [|rounds IH]; intros attempt Hsum Hpos;
    [lia|]. simpl.
  destruct (create attempt) as [response|err]; simpl; [done|].
  destruct (includes _ _); [done|].
  destruct (bool_decide _); simpl; [|done].
  destruct (Nat.ltb_spec attempt retries) as [Hlt|Hge]; [|done].
  specialize (IH (S attempt)).
  destruct (retry_loop _ _ _ rounds (S attempt)) as [result events].
  simpl in *. apply IH; lia.
Qed.

Lemma chatWithRetry_no_exit : (chatWithRetry create retries baseDelayMs).1 ≠ LoopExit.
Proof. apply retry_loop_no_exit; lia. Qed.

(** A run in which every call is rejected with status 429 and no message
    holds the quota phrase, followed from attempt [retries - d]. *)
Lemma rate_limited_from d attempt :
  (∀ n, rejects_429 (create n) = true ∧ names_quota (create n) = false) →
  (attempt + d = retries)%nat →
  ∃ err events,
    retry_loop create retries baseDelayMs (S d) attempt = (Threw err, events)
    ∧ create retries = Rejects err
    ∧ attempts events = seq attempt (S d)
    ∧ delays events = (λ n, baseDelayMs * 2 ^ Z.of_nat n) <$> seq attempt d.
Proof.
  intros Hall. revert attempt. induction d as [|d IH]; intros attempt Hsum.
  - assert (attempt = retries) as -> by lia.
    destruct (Hall retries) as [H429 Hquota]. simpl.
    destruct (create retries) as [response|err]; [done|]. simpl in *.
    rewrite Hquota, H429, Nat.ltb_irrefl. simpl. by exists err, [Create retries].
  - destruct (Hall attempt) as [H429 Hquota].
    destruct (IH (S attempt)) as (err & events & Hrun & Hlast & Hatt & Hdel); [lia|].
    rewrite retry_loop_step, Hrun.
    destruct (create attempt) as [response|err0]; [done|]. simpl in H429, Hquota.
    rewrite Hquota, H429. destruct (Nat.ltb_spec attempt retries); [|lia]. simpl.
    exists err, (Create attempt :: SetTimeout (baseDelayMs * 2 ^ Z.of_nat attempt) :: events).
    repeat split; [done| |].
    + rewrite attempts_cons_create, attempts_cons_timeout, Hatt. done.
    + by rewrite delays_cons_create, delays_cons_timeout, Hdel.
Qed.

End ClientFacts.

(** C3, as stated, fails when the rejections with status 429 carry the
    quota phrase, as the quota error of the completion service does: the
    first rejection ends the run with the billing error after one call. *)
Lemma quota_429_is_not_retried :
  (∀ n, rejects_429 (quota_429 n) = true)
  ∧ chatWithRetry quota_429 3 800 = (Threw billing_exceeded, [Create 0%nat])
  ∧ calls (chatWithRetry quota_429 3 800).2 = 1%nat
  ∧ calls (chatWithRetry quota_429 3 800).2 ≠ 4%nat
  ∧ delays (chatWithRetry quota_429 3 800).2 = []
  ∧ (∀ n, quota_429 n ≠ Rejects billing_exceeded).
Proof. by vm_compute. Qed.

(** C3, amended. When every call is rejected with status 429 and no
    rejection message holds the quota phrase, a client with 3 retries and a
    base delay of 800 ms makes exactly 4 calls, waits 800, 1600 and 3200 ms
    between them, and throws the rejection of the last call. For any number
    of retries and any base delay there are retries+1 calls and the wait
    before retry n is the base delay times 2^(n-1). In every run the number
    of calls is at most retries+1. *)
Theorem rate_limited_backoff :
  (∀ create : nat → Outcome,
     (∀ n, rejects_429 (create n) = true ∧ names_quota (create n) = false) →
     ∃ err,
       create 3%nat = Rejects err
       ∧ chatWithRetry create 3 800
         = (Threw err,
            [Create 0; SetTimeout 800; Create 1; SetTimeout 1600; Create 2;
             SetTimeout 3200; Create 3]%nat)
       ∧ calls (chatWithRetry create 3 800).2 = 4%nat
       ∧ delays (chatWithRetry create 3 800).2 = [800; 2 * 800; 4 * 800])
  ∧ (∀ (create : nat → Outcome) (retries : nat) (baseDelayMs : Z),
       (∀ n, rejects_429 (create n) = true ∧ names_quota (create n) = false) →
       ∃ err events,
         chatWithRetry create retries baseDelayMs = (Threw err, events)
         ∧ create retries = Rejects err
         ∧ calls events = S retries
         ∧ attempts events = seq 0 (S retries)
         ∧ delays events = (λ n, baseDelayMs * 2 ^ Z.of_nat n) <$> seq 0 retries)
  ∧ (∀ (create : nat → Outcome) (retries : nat) (baseDelayMs : Z),
       (calls (chatWithRetry create retries baseDelayMs).2 ≤ retries + 1)%nat).
Proof.
  assert (Hgen : ∀ (create : nat → Outcome) (retries : nat) (baseDelayMs : Z),
       (∀ n, rejects_429 (create n) = true ∧ names_quota (create n) = false) →
       ∃ err events,
         chatWithRetry create retries baseDelayMs = (Threw err, events)
         ∧ create retries = Rejects err
         ∧ calls events = S retries
         ∧ attempts events = seq 0 (S retries)
         ∧ delays events = (λ n, baseDelayMs * 2 ^ Z.of_nat n) <$> seq 0 retries).
  { intros create retries baseDelayMs Hall.
    destruct (rate_limited_from create retries baseDelayMs retries 0%nat Hall)
      as (err & events & Hrun & Hlast & Hatt & Hdel); [lia|].
    exists err, events. repeat split; try done.
    unfold calls. by rewrite Hatt, length_seq. }
  split; [|split; [exact Hgen|]].
  - intros create Hall.
    destruct (Hall 0%nat) as [A0 Q0], (Hall 1%nat) as [A1 Q1],
      (Hall 2%nat) as [A2 Q2], (Hall 3%nat) as [A3 Q3].
    unfold chatWithRetry. simpl.
    destruct (create 0%nat) as [|e0]; [done|]. simpl in *. rewrite Q0, A0. simpl.
    destruct (create 1%nat) as [|e1]; [done|]. simpl in *. rewrite Q1, A1. simpl.
    destruct (create 2%nat) as [|e2]; [done|]. simpl in *. rewrite Q2, A2. simpl.
    destruct (create 3%nat) as [|e3]; [done|]. simpl in *. rewrite Q3, A3. simpl.
    by exists e3.
  - intros create retries baseDelayMs. rewrite Nat.add_1_r.
    apply retry_loop_calls.
Qed.

(** The amended statement at an endpoint that always answers with a plain
    rate-limit error. *)
Lemma rate_limited_backoff_witness :
  ∃ err,
    busy_429 3%nat = Rejects err
    ∧ chatWithRetry busy_429 3 800
      = (Threw err,
         [Create 0; SetTimeout 800; Create 1; SetTimeout 1600; Create 2;
          SetTimeout 3200; Create 3]%nat)
    ∧ calls (chatWithRetry busy_429 3 800).2 = 4%nat
    ∧ delays (chatWithRetry busy_429 3 800).2 = [800; 2 * 800; 4 * 800].
Proof.
  apply (proj1 rate_limited_backoff busy_429). intros n. by vm_compute.
Defined.

(** C4. When the first call is rejected with a message that holds the quota
    phrase, the client makes that one call and throws the billing error,
    whatever the number of retries, the base delay and the status of the
    rejection. *)
Theorem quota_failure_fails_at_once
    (create : nat → Outcome) (retries : nat) (baseDelayMs : Z) (err : JsError) :
  create 0%nat = Rejects err →
  includes (error_text err) quota_phrase = true →
  chatWithRetry create retries baseDelayMs = (Threw billing_exceeded, [Create 0%nat])
  ∧ calls (chatWithRetry create retries baseDelayMs).2 = 1%nat
  ∧ delays (chatWithRetry create retries baseDelayMs).2 = []
  ∧ billing_exceeded ≠ err.
Proof.
  intros Hfirst Hquota.
  rewrite (chatWithRetry_quota _ _ _ _ Hfirst Hquota). repeat split; try done.
  intros <-. by vm_compute in Hquota.
Qed.

(** The theorem at the quota error with status 429 and at one with status
    400, with 7 retries. *)
Lemma quota_failure_fails_at_once_witness :
  chatWithRetry quota_429 7 800 = (Threw billing_exceeded, [Create 0%nat])
  ∧ chatWithRetry
      (λ _, Rejects {| message := Some "Please check your plan and billing details";
                       status := Some 400 |}) 7 250
    = (Threw billing_exceeded, [Create 0%nat]).
Proof.
  split.
  - eapply proj1, (quota_failure_fails_at_once quota_429 7 800); reflexivity.
  - eapply proj1, (quota_failure_fails_at_once _ 7 250); reflexivity.
Defined.

(* ===================================================================== *)
(** * The cache and [sendMessage] *)
(* ===================================================================== *)

Section AssemblerFacts.

Variables (JSON_parse : string → option JsValue) (client : Payload → nat → Outcome).

Implicit Types (st : State) (mode : Mode) (cleaned text : string)
  (events : list Event) (props : list (string * JsValue)).

Lemma writes_app events1 events2 :
  writes (events1 ++ events2) = writes events1 ++ writes events2.
Proof. apply omap_app. Qed.

Lemma attempts_app events1 events2 :
  attempts (events1 ++ events2) = attempts events1 ++ attempts events2.
Proof. apply omap_app. Qed.

(** The client touches the endpoint and the timer only. *)
Lemma retry_loop_writes create retries baseDelayMs rounds attempt :
  writes (retry_loop create retries baseDelayMs rounds attempt).2 = [].
Proof.
  revert attempt. induction rounds as [|rounds IH]; intros attempt; [done|].
  rewrite retry_loop_step.
  destruct (create attempt) as [response|err]; [done|].
  destruct (includes _ _); [done|].
  destruct (_ && _); [|done].
  specialize (IH (S attempt)).
  by destruct (retry_loop _ _ _ rounds (S attempt)) as [result events].
Qed.

Lemma chatWithRetry_writes create retries baseDelayMs :
  writes (chatWithRetry create retries baseDelayMs).2 = [].
Proof. apply retry_loop_writes. Qed.

(** [sendMessage] does nothing on a blank input or while a request runs. *)
Lemma sendMessage_guarded st :
  trim (input st) = EmptyString ∨ isLoading st = true →
  sendMessage JSON_parse client st = Some (st, []).
Proof.
  unfold sendMessage. intros [->| ->]; [done|]. by rewrite orb_true_r.
Qed.

(** A truthy read of the cache ends the run before the client is called. *)
Lemma sendMessage_hit st mode cleaned shown :
  trim (input st) ≠ EmptyString → isLoading st = false →
  classify (input st) = (mode, cleaned) →
  cached_content (getCachedResult (jironautCache st) cleaned) = Some shown →
  sendMessage JSON_parse client st
  = Some (shows st mode cleaned shown (jironautCache st), [CacheGet cleaned]).
Proof.
  intros Hin%String.eqb_neq Hload Hmode Hread. unfold sendMessage, shows.
  by rewrite Hin, Hload, Hmode, Hread.
Qed.

(** A falsy read sends the request; the run then follows the completion. *)
Lemma sendMessage_miss st mode cleaned completion events :
  trim (input st) ≠ EmptyString → isLoading st = false →
  classify (input st) = (mode, cleaned) →
  cached_content (getCachedResult (jironautCache st) cleaned) = None →
  chatWithRetry (client (completion_request (newMessages st mode cleaned))) 3 800
  = (completion, events) →
  sendMessage JSON_parse client st
  = match completion with
    | Returned response =>
        match scored_branch JSON_parse (choice_content response) with
        | Some (props, scores) =>
            match as_scores scores with
            | Some mapping =>
                let finalMessage :=
                  JSON_stringify
                    (JObj (with_score props (calculateBadgeAndTotal mapping))) in
                Some (shows st mode cleaned (Text finalMessage)
                        (setCachedResult (jironautCache st) cleaned finalMessage),
                      CacheGet cleaned :: events ++ [CachePut cleaned finalMessage])
            | None => None
            end
        | None =>
            Some (shows st mode cleaned (Text (choice_content response))
                    (jironautCache st), CacheGet cleaned :: events)
        end
    | Threw err =>
        Some (shows st mode cleaned (Text (humanMessage err)) (jironautCache st),
              CacheGet cleaned :: events)
    | LoopExit =>
        Some (shows st mode cleaned (Text (humanMessage undefined_response))
                (jironautCache st), CacheGet cleaned :: events)
    end.
Proof.
  intros Hin%String.eqb_neq Hload Hmode Hread Hrun. unfold sendMessage, shows.
  by rewrite Hin, Hload, Hmode, Hread, Hrun.
Qed.

(** After a falsy read the write goes to the key itself. *)
Lemma setCachedResult_after_miss (cache : gmap string string) cleaned text :
  cached_content (getCachedResult cache cleaned) = None →
  setCachedResult cache cleaned text = <[cleaned := text]> cache.
Proof.
  unfold setCachedResult, getCachedResult. intros Hread.
  destruct (decide (cleaned = "__proto__")) as [->|Hne].
  - destruct (cache !! "__proto__") as [t|] eqn:E.
    + by rewrite (bool_decide_eq_false_2 (Some t = None)), andb_false_r.
    + by vm_compute in Hread.
  - by rewrite (bool_decide_eq_false_2 _ Hne).
Qed.

Lemma get_set_prop_eq k (v : JsValue) props : get_prop k (set_prop k v props) = Some v.
Proof.
  induction props as [|[k' v'] props IH]; simpl.
  - by rewrite String.eqb_refl.
  - destruct (String.eqb k k') eqn:E; simpl; by rewrite ?String.eqb_refl, ?E.
Qed.

Lemma get_set_prop_ne k k' (v : JsValue) props :
  k ≠ k' → get_prop k' (set_prop k v props) = get_prop k' props.
Proof.
  intros Hne. induction props as [|[k0 v0] props IH]; simpl.
  - by rewrite (proj2 (String.eqb_neq k' k)).
  - destruct (String.eqb_spec k k0) as [<-|Hk]; simpl.
    + by rewrite (proj2 (String.eqb_neq k' k)).
    + by rewrite IH.
Qed.

(** The properties of the object that is serialised on the scored branch. *)
Lemma with_score_props props (result : ScoreResult) :
  get_prop "total" (with_score props result) = Some (JNum (total result))
  ∧ get_prop "badge" (with_score props result)
    = Some (match badge result with Some b => JStr b | None => JNull end)
  ∧ ∀ k, k ≠ "total" → k ≠ "badge" →
         get_prop k (with_score props result) = get_prop k props.
Proof.
  unfold with_score. repeat split.
  - by rewrite get_set_prop_ne, get_set_prop_eq.
  - by rewrite get_set_prop_eq.
  - intros k Ht Hb. by rewrite !get_set_prop_ne.
Qed.

(** A rubric mapping is an object, and an object is truthy. *)
Lemma as_scores_truthy (scores : JsValue) mapping :
  as_scores scores = Some mapping → truthy scores = true.
Proof. by destruct scores. Qed.

Lemma JSON_stringify_object_nonempty props : JSON_stringify (JObj props) ≠ EmptyString.
Proof. done. Qed.

End AssemblerFacts.

Section RunFacts.

Variables (JSON_parse : string → option JsValue) (client : Payload → nat → Outcome).

Lemma scored_branch_Some (aiMessage : string) props (scores : JsValue) :
  scored_branch JSON_parse aiMessage = Some (props, scores) ↔
  JSON_parse aiMessage = Some (JObj props)
  ∧ get_prop "scores" props = Some scores ∧ truthy scores = true.
Proof.
  unfold scored_branch. split.
  - destruct (JSON_parse aiMessage) as [[| | | | | |props']|]; try done.
    destruct (get_prop "scores" props') as [scores'|] eqn:G; [|done].
    destruct (truthy scores') eqn:E; [|done]. by intros [= <- <-].
  - intros (-> & -> & ->). done.
Qed.


(** Every run that passes the guard begins by reading the cache at the
    cleaned input, whatever the mode. *)
Lemma sendMessage_reads_cache st st' events :
  trim (input st) ≠ EmptyString → isLoading st = false →
  sendMessage JSON_parse client st = Some (st', events) →
  ∃ rest, events = CacheGet (classify (input st)).2 :: rest.
Proof.
  intros Hin%String.eqb_neq Hload. unfold sendMessage. rewrite Hin, Hload. simpl.
  destruct (classify (input st)) as [mode cleaned]. simpl.
  destruct (cached_content _) as [shown|]; [intros [= <- <-]; by eexists|].
  destruct (chatWithRetry _ _ _) as [completion events0].
  destruct completion as [response|err|]; try (intros [= <- <-]; by eexists).
  destruct (scored_branch _ _) as [[props scores]|]; [|intros [= <- <-]; by eexists].
  destruct (as_scores scores); [|done]. intros [= <- <-]. by eexists.
Qed.

(** A run writes to the store on the scored branch only, and what it writes
    there is the serialised object, under the cleaned input. *)
Lemma sendMessage_write_inv st st' events k text :
  sendMessage JSON_parse client st = Some (st', events) →
  (k, text) ∈ writes events →
  ∃ mode response props scores mapping,
    classify (input st) = (mode, k)
    ∧ cached_content (getCachedResult (jironautCache st) k) = None
    ∧ JSON_parse (choice_content response) = Some (JObj props)
    ∧ get_prop "scores" props = Some scores
    ∧ as_scores scores = Some mapping
    ∧ text = JSON_stringify (JObj (with_score props (calculateBadgeAndTotal mapping)))
    ∧ jironautCache st' = <[k := text]> (jironautCache st)
    ∧ writes events = [(k, text)].
Proof.
  unfold sendMessage.
  destruct (_ || _); [intros [= <- <-]; by intros ?%elem_of_nil|].
  destruct (classify (input st)) as [mode cleaned]. cbv beta iota zeta.
  destruct (cached_content _) as [shown|] eqn:Hread;
    [intros [= <- <-]; by intros ?%elem_of_nil|].
  destruct (chatWithRetry _ _ _) as [completion events0] eqn:Hrun.
  assert (Hquiet : writes events0 = []).
  { change events0 with (completion, events0).2. rewrite <- Hrun.
    apply chatWithRetry_writes. }
  assert (Hplain : ∀ shown cache,
    Some (shows st mode cleaned (Text shown) cache, CacheGet cleaned :: events0)
    = Some (st', events) → (k, text) ∈ writes events → False).
  { intros shown cache [= <- <-]. change (writes _) with (writes events0).
    rewrite Hquiet. by intros ?%elem_of_nil. }
  destruct completion as [response|err|]; try (intros ??; exfalso; by eapply Hplain).
  destruct (scored_branch _ _) as [[props scores]|] eqn:Hbranch;
    [|intros ??; exfalso; by eapply Hplain].
  apply scored_branch_Some in Hbranch as (Hparse & Hscores & _).
  destruct (as_scores scores) as [mapping|] eqn:Hview; [|done].
  intros [= <- <-]. clear Hplain.
  change (writes (CacheGet cleaned :: ?e)) with (writes e).
  rewrite writes_app, Hquiet, app_nil_l.
  change (writes [CachePut ?a ?b]) with [(a, b)].
  intros [= -> ->]%list_elem_of_singleton.
  exists mode, response, props, scores, mapping. repeat split; try done.
  by apply setCachedResult_after_miss.
Qed.

(** A run has a result unless the answer carries a truthy [scores] that
    is no rubric mapping, the one place that the embedding leaves out. *)
Lemma sendMessage_None st :
  sendMessage JSON_parse client st = None →
  ∃ events response props scores,
    chatWithRetry
      (client (completion_request
                 (newMessages st (classify (input st)).1 (classify (input st)).2)))
      3 800 = (Returned response, events)
    ∧ JSON_parse (choice_content response) = Some (JObj props)
    ∧ get_prop "scores" props = Some scores
    ∧ truthy scores = true
    ∧ as_scores scores = None.
Proof.
  unfold sendMessage. destruct (_ || _); [done|].
  destruct (classify (input st)) as [mode cleaned]. cbv beta iota zeta.
  destruct (cached_content _); [done|]. cbn [fst snd].
  destruct (chatWithRetry _ _ _) as [completion events] eqn:Hrun.
  destruct completion as [response|err|]; try done.
  destruct (scored_branch _ _) as [[props scores]|] eqn:Hbranch; [|done].
  apply scored_branch_Some in Hbranch as (Hparse & Hscores & Htruthy).
  destruct (as_scores scores) eqn:Hview; [done|]. intros _.
  by exists events, response, props, scores.
Qed.

(** A text stored by one run is shown by the next run on the same cleaned
    input, with no call of the endpoint. *)
Lemma sendMessage_twice st st1 events1 k text JSON_parse' client' st2 mode2 :
  sendMessage JSON_parse client st = Some (st1, events1) →
  (k, text) ∈ writes events1 →
  jironautCache st2 = jironautCache st1 →
  trim (input st2) ≠ EmptyString → isLoading st2 = false →
  classify (input st2) = (mode2, k) →
  sendMessage JSON_parse' client' st2
  = Some (shows st2 mode2 k (Text text) (jironautCache st2), [CacheGet k]).
Proof.
  intros Hrun Hwrite Hsame Hin Hload Hmode.
  destruct (sendMessage_write_inv _ _ _ _ _ Hrun Hwrite)
    as (mode & response & props & scores & mapping & _ & _ & _ & _ & _ & -> & Hcache & _).
  apply sendMessage_hit; try done.
  unfold getCachedResult. by rewrite Hsame, Hcache, lookup_insert_eq.
Qed.

End RunFacts.

(** C5, as stated, fails on an input without a mode prefix: the input is
    classified Unsupported, and the run still reads the cache at the cleaned
    input. Here the store holds a text under "fix the login bug", left by an
    earlier "score: fix the login bug"; the run shows that text and calls
    nothing else. *)
Lemma unsupported_input_reads_cache :
  classify "score: fix the login bug" = (Score, "fix the login bug")
  ∧ classify "fix the login bug" = (Unsupported, "fix the login bug")
  ∧ sendMessage (parse_known []) (answers "unused")
      (fresh "fix the login bug" {[ "fix the login bug" := "stored report" ]})
    = Some (shows (fresh "fix the login bug" {[ "fix the login bug" := "stored report" ]})
              Unsupported "fix the login bug" (Text "stored report")
              {[ "fix the login bug" := "stored report" ]},
            [CacheGet "fix the login bug"]).
Proof. by vm_compute. Qed.

(** C5, amended. The cache is read in every mode, Unsupported included, at
    the cleaned input. Whenever it holds a non-empty text there, the run
    shows that text unchanged as the assistant message, leaves the store as
    it was and makes no call of the completion endpoint. The texts that a
    run stores are never empty, so a text stored by one run is what the next
    run on the same cleaned input shows. *)
Theorem cache_hit_skips_client :
  (∀ JSON_parse client st mode cleaned text,
     trim (input st) ≠ EmptyString → isLoading st = false →
     classify (input st) = (mode, cleaned) →
     jironautCache st !! cleaned = Some text → text ≠ EmptyString →
     sendMessage JSON_parse client st
     = Some (shows st mode cleaned (Text text) (jironautCache st), [CacheGet cleaned])
     ∧ calls [CacheGet cleaned] = 0%nat
     ∧ writes [CacheGet cleaned] = [])
  ∧ (∀ JSON_parse client st st' events,
       trim (input st) ≠ EmptyString → isLoading st = false →
       sendMessage JSON_parse client st = Some (st', events) →
       ∃ rest, events = CacheGet (classify (input st)).2 :: rest)
  ∧ (∀ JSON_parse client st st1 events1 k text JSON_parse' client' st2 mode2,
       sendMessage JSON_parse client st = Some (st1, events1) →
       (k, text) ∈ writes events1 →
       jironautCache st2 = jironautCache st1 →
       trim (input st2) ≠ EmptyString → isLoading st2 = false →
       classify (input st2) = (mode2, k) →
       text ≠ EmptyString
       ∧ sendMessage JSON_parse' client' st2
         = Some (shows st2 mode2 k (Text text) (jironautCache st2), [CacheGet k])).
Proof.
  split; [|split].
  - intros JSON_parse client st mode cleaned text Hin Hload Hmode Hentry Htext.
    split; [|done]. apply sendMessage_hit; try done.
    unfold getCachedResult. rewrite Hentry. simpl.
    by rewrite (proj2 (String.eqb_neq text EmptyString)).
  - intros JSON_parse client st st' events. apply sendMessage_reads_cache.
  - intros JSON_parse client st st1 events1 k text JSON_parse' client' st2 mode2
      Hrun Hwrite Hsame Hin Hload Hmode.
    split; [|by eapply sendMessage_twice].
    destruct (sendMessage_write_inv _ _ _ _ _ _ _ Hrun Hwrite)
      as (? & ? & ? & ? & ? & _ & _ & _ & _ & _ & -> & _).
    apply JSON_stringify_object_nonempty.
Qed.

(** The first part at an input in Draft mode and a store that holds a text
    for its cleaned input. *)
Lemma cache_hit_skips_client_witness :
  sendMessage (parse_known []) (answers "unused")
    (fresh "Draft: add SSO login" {[ "add SSO login" := "stored draft" ]})
  = Some (shows (fresh "Draft: add SSO login" {[ "add SSO login" := "stored draft" ]})
            Draft "add SSO login" (Text "stored draft")
            {[ "add SSO login" := "stored draft" ]},
          [CacheGet "add SSO login"]).
Proof.
  destruct (proj1 cache_hit_skips_client (parse_known []) (answers "unused")
              (fresh "Draft: add SSO login" {[ "add SSO login" := "stored draft" ]})
              Draft "add SSO login" "stored draft") as [H _];
    [by vm_compute..|exact H].
Defined.






(** C9. Whatever error the client throws (the billing error, the last
    rate-limit rejection, or any other rejection), the run ends with an
    assistant message appended to the conversation whose text is one of two
    fixed texts: the quota text when the message of the error contains
    "billing", which the billing error of the client does, and the
    too-many-requests text otherwise. The loading flag is cleared, the store
    is untouched, and the text shown is not empty. In particular a first
    rejection that holds the quota phrase ends in the quota text. *)
Theorem client_failure_becomes_reply :
  (∀ JSON_parse client st mode cleaned err events,
     trim (input st) ≠ EmptyString → isLoading st = false →
     classify (input st) = (mode, cleaned) →
     cached_content (getCachedResult (jironautCache st) cleaned) = None →
     chatWithRetry (client (completion_request (newMessages st mode cleaned))) 3 800
     = (Threw err, events) →
     sendMessage JSON_parse client st
     = Some (shows st mode cleaned (Text (humanMessage err)) (jironautCache st),
             CacheGet cleaned :: events)
     ∧ last (messages (shows st mode cleaned (Text (humanMessage err)) (jironautCache st)))
       = Some {| role := assistant; content := Text (humanMessage err) |}
     ∧ isLoading (shows st mode cleaned (Text (humanMessage err)) (jironautCache st))
       = false
     ∧ writes (CacheGet cleaned :: events) = []
     ∧ humanMessage err = (if includes (error_text err) "billing"
                           then quota_text else hurry_text)
     ∧ (humanMessage err = quota_text ∨ humanMessage err = hurry_text)
     ∧ humanMessage err ≠ EmptyString)
  ∧ humanMessage billing_exceeded = quota_text
  ∧ (∀ JSON_parse client st mode cleaned err,
       trim (input st) ≠ EmptyString → isLoading st = false →
       classify (input st) = (mode, cleaned) →
       cached_content (getCachedResult (jironautCache st) cleaned) = None →
       client (completion_request (newMessages st mode cleaned)) 0%nat = Rejects err →
       includes (error_text err) quota_phrase = true →
       sendMessage JSON_parse client st
       = Some (shows st mode cleaned (Text quota_text) (jironautCache st),
               [CacheGet cleaned; Create 0])).
Proof.
  split; [|split; [by vm_compute|]].
  - intros JSON_parse client st mode cleaned err events Hin Hload Hmode Hread Hrun.
    assert (Hcases : humanMessage err = quota_text ∨ humanMessage err = hurry_text).
    { unfold humanMessage. destruct (includes _ _); [by left|by right]. }
    repeat split; try done.
    + by rewrite (sendMessage_miss _ _ _ _ _ _ _ Hin Hload Hmode Hread Hrun).
    + unfold shows. cbn [messages]. apply last_snoc.
    + change (writes (CacheGet cleaned :: ?e)) with (writes e).
      change events with (Threw err, events).2. rewrite <- Hrun.
      apply chatWithRetry_writes.
    + by destruct Hcases as [-> | ->].
  - intros JSON_parse client st mode cleaned err Hin Hload Hmode Hread Hfirst Hquota.
    by rewrite (sendMessage_miss _ _ _ _ _ _ _ Hin Hload Hmode Hread
                  (chatWithRetry_quota _ _ _ _ Hfirst Hquota)).
Qed.

(** The theorem at the quota error of the service, at a plain rate-limit
    error and at an error without status or message. *)
Lemma client_failure_becomes_reply_witness :
  sendMessage (parse_known []) (λ _, quota_429) (fresh "score: fix login" ∅)
  = Some (shows (fresh "score: fix login" ∅) Score "fix login" (Text quota_text) ∅,
          [CacheGet "fix login"; Create 0])
  ∧ sendMessage (parse_known []) (λ _, busy_429) (fresh "score: fix login" ∅)
    = Some (shows (fresh "score: fix login" ∅) Score "fix login" (Text hurry_text) ∅,
            [CacheGet "fix login"; Create 0; SetTimeout 800; Create 1; SetTimeout 1600;
             Create 2; SetTimeout 3200; Create 3])
  ∧ sendMessage (parse_known []) (fails {| message := None; status := None |})
      (fresh "hello" ∅)
    = Some (shows (fresh "hello" ∅) Unsupported "hello" (Text hurry_text) ∅,
            [CacheGet "hello"; Create 0]).
Proof.
  split; [|split].
  - destruct (proj1 client_failure_becomes_reply (parse_known []) (λ _, quota_429)
                (fresh "score: fix login" ∅) Score "fix login" billing_exceeded
                [Create 0%nat]) as [H _]; [by vm_compute..|exact H].
  - destruct (proj1 client_failure_becomes_reply (parse_known []) (λ _, busy_429)
                (fresh "score: fix login" ∅) Score "fix login"
                {| message := Some "Rate limit reached for requests";
                   status := Some 429 |}
                [Create 0; SetTimeout 800; Create 1; SetTimeout 1600; Create 2;
                 SetTimeout 3200; Create 3]%nat) as [H _]; [by vm_compute..|exact H].
  - destruct (proj1 client_failure_becomes_reply (parse_known [])
                (fails {| message := None; status := None |})
                (fresh "hello" ∅) Unsupported "hello"
                {| message := None; status := None |}
                [Create 0%nat]) as [H _]; [by vm_compute..|exact H].
Defined.

(* ===================================================================== *)
(** * Runs at the edges of the model *)
(* ===================================================================== *)

(** Only the matched prefix is cut: a second "draft:" in the brief stays. *)
Example nested_prefix_is_kept :
  classify "draft: draft: tidy the backlog" = (Draft, "draft: tidy the backlog").
Proof. by vm_compute. Qed.

(** White space outside ASCII is trimmed too (here U+00A0 and U+2028). *)
Example unicode_space_is_trimmed :
  trim (bytes [194; 160; 32; 65; 32; 226; 128; 168]%nat) = "A".
Proof. by vm_compute. Qed.

(** A cleaned input that names a member of [Object.prototype] reads that
    member from an empty store: the run shows it and calls nothing. *)
Example inherited_member_is_shown :
  sendMessage (parse_known []) (answers "unused") (fresh "score: toString" ∅)
  = Some ({| messages := newMessages (fresh "score: toString" ∅) Score "toString"
                           ++ [reply (Member "toString")];
             input := EmptyString;
             isLoading := false;
             jironautCache := ∅ |},
          [CacheGet "toString"]).
Proof. by vm_compute. Qed.

(** An empty stored text is falsy: the run goes on to the endpoint. *)
Example empty_entry_is_a_miss :
  sendMessage (parse_known []) (answers "raw")
    (fresh "draft: brief" {[ "brief" := EmptyString ]})
  = Some (shows (fresh "draft: brief" {[ "brief" := EmptyString ]}) Draft "brief"
            (Text "raw") {[ "brief" := EmptyString ]},
          [CacheGet "brief"; Create 0]).
Proof. by vm_compute. Qed.

(** The outer [catch] looks for the word "billing" alone: a rejection that
    the client passes on unchanged, and whose message has that word, is
    answered with the quota text. *)
Example other_billing_message_gets_quota_text :
  names_quota (Rejects {| message := Some "Your billing address is missing";
                          status := Some 400 |}) = false
  ∧ sendMessage (parse_known [])
      (fails {| message := Some "Your billing address is missing"; status := Some 400 |})
      (fresh "score: fix login" ∅)
    = Some (shows (fresh "score: fix login" ∅) Score "fix login" (Text quota_text) ∅,
            [CacheGet "fix login"; Create 0]).
Proof. by vm_compute. Qed.

(** Two submissions in a row: the report stored by "score: fix login" is
    what the bare input "fix login" shows, with no further call. *)
Example second_submission_is_served_from_cache :
  ∃ st1 events1 text,
    sendMessage (parse_known [risk_report]) (answers (JSON_stringify risk_report))
      (fresh "score: fix login" ∅) = Some (st1, events1)
    ∧ writes events1 = [("fix login", text)]
    ∧ calls events1 = 1%nat
    ∧ sendMessage (parse_known [risk_report]) (answers (JSON_stringify risk_report))
        (setInput st1 "fix login")
      = Some (shows (setInput st1 "fix login") Unsupported "fix login" (Text text)
                (jironautCache st1),
              [CacheGet "fix login"]).
Proof. do 3 eexists. by vm_compute. Qed.

(* ===================================================================== *)
(** * More on the completion client *)
(* ===================================================================== *)

Section ClientRuns.

Variables (create : nat → Outcome) (retries : nat) (baseDelayMs : Z).

Lemma backoff_S first n :
  backoff baseDelayMs first (S n)
  = backoff baseDelayMs first n
    ++ [Create (first + n); SetTimeout (baseDelayMs * 2 ^ Z.of_nat (first + n))].
Proof.
  unfold backoff. by rewrite seq_S, flat_map_app.
Qed.

Lemma backoff_cons first n :
  backoff baseDelayMs first (S n)
  = Create first :: SetTimeout (baseDelayMs * 2 ^ Z.of_nat first)
      :: backoff baseDelayMs (S first) n.
Proof. done. Qed.

Lemma attempts_backoff first n tail :
  attempts (backoff baseDelayMs first n ++ tail) = seq first n ++ attempts tail.
Proof.
  revert first. induction n as [|n IH]; intros first; [done|].
  rewrite backoff_cons. cbn [app]. rewrite attempts_cons_create, attempts_cons_timeout.
  rewrite IH. done.
Qed.

Lemma delays_backoff first n tail :
  delays (backoff baseDelayMs first n ++ tail)
  = ((λ k, baseDelayMs * 2 ^ Z.of_nat k) <$> seq first n) ++ delays tail.
Proof.
  revert first. induction n as [|n IH]; intros first; [done|].
  rewrite backoff_cons. cbn [app]. rewrite delays_cons_create, delays_cons_timeout.
  rewrite IH. done.
Qed.

(** Every run of the loop stops at some attempt [k]: the attempts before it
    were rate-limited and waited for, and the answer to attempt [k] decides
    the result. *)
Lemma retry_loop_settles d attempt :
  (attempt + d = retries)%nat →
  ∃ k, (attempt ≤ k ≤ retries)%nat
    ∧ (∀ n, (attempt ≤ n < k)%nat → rate_limited (create n) = true)
    ∧ (rate_limited (create k) = true → k = retries)
    ∧ retry_loop create retries baseDelayMs (S d) attempt
      = (match create k with
         | Resolves response => Returned response
         | Rejects err =>
             if includes (error_text err) quota_phrase
             then Threw billing_exceeded else Threw err
         end,
         backoff baseDelayMs attempt (k - attempt) ++ [Create k]).
Proof.
  revert attempt. induction d as [|d IH]; intros attempt Hsum.
  - exists attempt. rewrite Nat.sub_diag, retry_loop_step.
    split; [lia|]. split; [intros; lia|]. split; [lia|].
    destruct (create attempt) as [response|err]; [done|].
    destruct (includes _ _); [done|].
    destruct (Nat.ltb_spec attempt retries); [lia|]. by rewrite andb_false_r.
  - destruct (IH (S attempt)) as (k & Hk & Hbefore & Hlast & Hrun); [lia|].
    rewrite retry_loop_step, Hrun. clear Hrun. unfold rate_limited in *.
    destruct (create attempt) as [response|err] eqn:Hanswer.
    { exists attempt. rewrite Nat.sub_diag, Hanswer.
      split; [lia|]. split; [intros; lia|]. by split. }
    destruct (includes (error_text err) quota_phrase) eqn:Hquota.
    { exists attempt. rewrite Nat.sub_diag, Hanswer. cbn [rejects_429 names_quota].
      rewrite Hquota. split; [lia|]. split; [intros; lia|]. split; [|done].
      by rewrite andb_false_r. }
    destruct (bool_decide (status err = Some 429)) eqn:H429.
    + destruct (Nat.ltb_spec attempt retries); [|lia]. cbn [andb].
      exists k. split; [lia|]. split; [|split; [done|]].
      * intros n Hn. destruct (decide (n = attempt)) as [->|].
        -- rewrite Hanswer. cbn [rejects_429 names_quota]. by rewrite H429, Hquota.
        -- apply Hbefore. lia.
      * replace (k - attempt)%nat with (S (k - S attempt)) by lia.
        by rewrite backoff_cons.
    + exists attempt. rewrite Nat.sub_diag, Hanswer. cbn [rejects_429 names_quota andb].
      rewrite Hquota, H429.
      split; [lia|]. split; [intros; lia|]. by split.
Qed.

(** The attempt at which a run stops is the first one that is not
    rate-limited, or the last one that the loop allows. *)
Lemma chatWithRetry_settles_at k :
  (k ≤ retries)%nat →
  (∀ n, (n < k)%nat → rate_limited (create n) = true) →
  rate_limited (create k) = false ∨ k = retries →
  chatWithRetry create retries baseDelayMs
  = (match create k with
     | Resolves response => Returned response
     | Rejects err =>
         if includes (error_text err) quota_phrase
         then Threw billing_exceeded else Threw err
     end,
     backoff baseDelayMs 0 k ++ [Create k]).
Proof.
  intros Hk Hbefore Hstop. unfold chatWithRetry.
  destruct (retry_loop_settles retries 0%nat) as (k' & Hk' & Hbefore' & Hlast' & ->);
    [lia|].
  rewrite Nat.sub_0_r.
  assert (k' = k) as ->; [|done].
  destruct (Nat.lt_trichotomy k' k) as [Hlt|[->|Hgt]]; [|done|].
  - specialize (Hlast' (Hbefore _ Hlt)). lia.
  - assert (Hlim : rate_limited (create k) = true) by (apply Hbefore'; lia).
    destruct Hstop as [Hstop| ->]; [congruence|lia].
Qed.

Lemma foldr_add_snoc (l : list Z) (x : Z) :
  foldr Z.add 0 (l ++ [x]) = foldr Z.add 0 l + x.
Proof. induction l as [|y l IH]; simpl; lia. Qed.

(** The waits of [k] rate-limited attempts add up to the base delay times
    2^k - 1. *)
Lemma total_wait_backoff k tail :
  delays tail = [] →
  total_wait (backoff baseDelayMs 0 k ++ tail) = baseDelayMs * (2 ^ Z.of_nat k - 1).
Proof.
  intros Htail. unfold total_wait. rewrite delays_backoff, Htail, app_nil_r.
  induction k as [|k IH]; [simpl; lia|].
  rewrite seq_S, fmap_app, Nat.add_0_l. cbn [fmap list_fmap].
  rewrite foldr_add_snoc, IH, Nat2Z.inj_succ, Z.pow_succ_r by lia. lia.
Qed.

(** A run makes between 1 and retries+1 calls and, with a base delay that is
    not negative, waits at most the base delay times 2^retries - 1. *)
Lemma chatWithRetry_budget :
  (1 ≤ calls (chatWithRetry create retries baseDelayMs).2 ≤ S retries)%nat
  ∧ (0 ≤ baseDelayMs →
     0 ≤ total_wait (chatWithRetry create retries baseDelayMs).2
       ≤ baseDelayMs * (2 ^ Z.of_nat retries - 1)).
Proof.
  unfold chatWithRetry.
  destruct (retry_loop_settles retries 0%nat) as (k & Hk & _ & _ & ->); [lia|].
  rewrite Nat.sub_0_r. cbn [snd]. split.
  - unfold calls. rewrite attempts_backoff, length_app, length_seq. simpl. lia.
  - intros Hbase. rewrite total_wait_backoff by done.
    assert (1 ≤ 2 ^ Z.of_nat k ≤ 2 ^ Z.of_nat retries).
    { split; [|apply Z.pow_le_mono_r; lia].
      pose proof (Z.pow_pos_nonneg 2 (Z.of_nat k)). lia. }
    nia.
Qed.

End ClientRuns.

(** X1. Every run of the client stops at some attempt k <= retries. The
    attempts before k were rejected with status 429 and no quota phrase,
    each followed by its wait; the answer to attempt k decides the result:
    a resolution is returned, a rejection with the quota phrase becomes the
    billing error, any other rejection is thrown as it is. There are k+1
    calls and k waits, the n-th wait being the base delay times 2^n, and
    the function never ends without returning or throwing. *)
Theorem chatWithRetry_stops_at_first_settled_attempt
    (create : nat → Outcome) (retries : nat) (baseDelayMs : Z) :
  ∃ k, (k ≤ retries)%nat
    ∧ Forall (λ n, rate_limited (create n) = true) (seq 0 k)
    ∧ (k = retries ∨ rate_limited (create k) = false)
    ∧ chatWithRetry create retries baseDelayMs
      = (match create k with
         | Resolves response => Returned response
         | Rejects err =>
             if includes (error_text err) quota_phrase
             then Threw billing_exceeded else Threw err
         end,
         backoff baseDelayMs 0 k ++ [Create k])
    ∧ calls (chatWithRetry create retries baseDelayMs).2 = S k
    ∧ delays (chatWithRetry create retries baseDelayMs).2
      = (λ n, baseDelayMs * 2 ^ Z.of_nat n) <$> seq 0 k
    ∧ (chatWithRetry create retries baseDelayMs).1 ≠ LoopExit.
Proof.
  unfold chatWithRetry.
  destruct (retry_loop_settles create retries baseDelayMs retries 0%nat)
    as (k & Hk & Hbefore & Hlast & Hrun); [lia|].
  rewrite Nat.sub_0_r in Hrun. rewrite Hrun. exists k.
  split; [lia|]. split; [|split; [|split; [done|split; [|split]]]].
  - apply Forall_forall. intros n Hn%elem_of_seq. apply Hbefore. lia.
  - destruct (rate_limited (create k)) eqn:E; [left; by apply Hlast|by right].
  - unfold calls. cbn [snd]. rewrite attempts_backoff. cbn.
    rewrite length_app, length_seq. simpl. lia.
  - cbn [snd]. rewrite delays_backoff. cbn. by rewrite app_nil_r.
  - cbn [fst]. destruct (create k) as [|err]; [done|].
    by destruct (includes _ _).
Qed.

(** X2. When the first k <= retries attempts are rate-limited and attempt k
    resolves, the client returns that response after k+1 calls and k waits
    of baseDelayMs, 2*baseDelayMs, ... *)
Theorem rate_limit_recovery
    (create : nat → Outcome) (retries : nat) (baseDelayMs : Z) (k : nat)
    (response : Response) :
  (k ≤ retries)%nat →
  (∀ n, (n < k)%nat → rate_limited (create n) = true) →
  create k = Resolves response →
  chatWithRetry create retries baseDelayMs
  = (Returned response, backoff baseDelayMs 0 k ++ [Create k])
  ∧ calls (backoff baseDelayMs 0 k ++ [Create k]) = S k
  ∧ delays (backoff baseDelayMs 0 k ++ [Create k])
    = (λ n, baseDelayMs * 2 ^ Z.of_nat n) <$> seq 0 k.
Proof.
  intros Hk Hbefore Hanswer. split; [|split].
  - rewrite (chatWithRetry_settles_at create retries baseDelayMs k Hk Hbefore).
    + by rewrite Hanswer.
    + left. by rewrite Hanswer.
  - unfold calls. rewrite attempts_backoff, length_app, length_seq. simpl. lia.
  - rewrite delays_backoff. cbn. by rewrite app_nil_r.
Qed.

(** The theorem at an endpoint that is busy twice and then answers. *)
Lemma rate_limit_recovery_witness :
  chatWithRetry (λ n, if (n <? 2)%nat then busy_429 n
                      else Resolves {| choice_content := "ok" |}) 3 800
  = (Returned {| choice_content := "ok" |},
     [Create 0; SetTimeout 800; Create 1; SetTimeout 1600; Create 2]%nat).
Proof.
  destruct (rate_limit_recovery
              (λ n, if (n <? 2)%nat then busy_429 n
                    else Resolves {| choice_content := "ok" |})
              3 800 2 {| choice_content := "ok" |}) as [H _].
  - lia.
  - intros n Hn. destruct n as [|[|n]]; [done|done|lia].
  - reflexivity.
  - exact H.
Defined.

(** X3. Only status 429 is retried. When attempt k (after k rate-limited
    attempts) is rejected with another status, or with none, and without the
    quota phrase, the client makes no further call and throws that rejection
    unchanged. *)
Theorem other_failure_is_thrown_unchanged
    (create : nat → Outcome) (retries : nat) (baseDelayMs : Z) (k : nat)
    (err : JsError) :
  (k ≤ retries)%nat →
  (∀ n, (n < k)%nat → rate_limited (create n) = true) →
  create k = Rejects err →
  status err ≠ Some 429 →
  includes (error_text err) quota_phrase = false →
  chatWithRetry create retries baseDelayMs
  = (Threw err, backoff baseDelayMs 0 k ++ [Create k])
  ∧ calls (backoff baseDelayMs 0 k ++ [Create k]) = S k.
Proof.
  intros Hk Hbefore Hanswer Hstatus Hquota. split.
  - rewrite (chatWithRetry_settles_at create retries baseDelayMs k Hk Hbefore).
    + by rewrite Hanswer, Hquota.
    + left. rewrite Hanswer. unfold rate_limited. cbn [rejects_429].
      by rewrite (bool_decide_eq_false_2 _ Hstatus).
  - unfold calls. rewrite attempts_backoff, length_app, length_seq. simpl. lia.
Qed.

(** The theorem at a server error on the first attempt. *)
Lemma other_failure_is_thrown_unchanged_witness :
  chatWithRetry (λ _, Rejects {| message := Some "Internal server error";
                                 status := Some 500 |}) 3 800
  = (Threw {| message := Some "Internal server error"; status := Some 500 |},
     [Create 0%nat]).
Proof.
  destruct (other_failure_is_thrown_unchanged
              (λ _, Rejects {| message := Some "Internal server error";
                               status := Some 500 |})
              3 800 0 {| message := Some "Internal server error";
                         status := Some 500 |}) as [H _].
  - lia.
  - intros n Hn. lia.
  - reflexivity.
  - by vm_compute.
  - by vm_compute.
  - exact H.
Defined.

(** X4. With a base delay that is not negative, the waits of a run add up
    to at most baseDelayMs * (2^retries - 1); with the values that
    [sendMessage] uses, to at most 5600 ms. *)
Theorem total_wait_is_bounded
    (create : nat → Outcome) (retries : nat) (baseDelayMs : Z) :
  0 ≤ baseDelayMs →
  0 ≤ total_wait (chatWithRetry create retries baseDelayMs).2
    ≤ baseDelayMs * (2 ^ Z.of_nat retries - 1).
Proof.
  intros Hbase. by apply chatWithRetry_budget.
Qed.

(** The theorem at the values of [sendMessage] and an endpoint that is
    always busy: the bound 5600 ms is reached. *)
Lemma total_wait_is_bounded_witness :
  0 ≤ total_wait (chatWithRetry busy_429 3 800).2 ≤ 800 * (2 ^ 3 - 1)
  ∧ total_wait (chatWithRetry busy_429 3 800).2 = 5600.
Proof.
  split; [apply (total_wait_is_bounded busy_429 3 800); lia|by vm_compute].
Defined.

(* ===================================================================== *)
(** * More on the cache primitives and the scorer *)
(* ===================================================================== *)



Section RubricBounds.

Implicit Types (scores : gmap string Z) (k c : string) (v : Z).

Lemma points_or_zero scores c : or_zero (scores !! c) = points scores c.
Proof. apply or_zero_default. Qed.








Lemma or_zero_insert_zero scores k c :
  scores !! k = None → or_zero (<[k:=0]> scores !! c) = or_zero (scores !! c).
Proof.
  intros Hk. destruct (decide (k = c)) as [->|Hne].
  - by rewrite lookup_insert_eq, Hk.
  - by rewrite lookup_insert_ne.
Qed.

End RubricBounds.





(** X8. A key that is present with value 0 counts like a key that is
    absent: adding it changes neither the total nor the badge. *)
Theorem zero_counts_as_absent (scores : gmap string Z) (k : string) :
  scores !! k = None →
  calculateBadgeAndTotal (<[k:=0]> scores) = calculateBadgeAndTotal scores.
Proof.
  intros Hk. unfold calculateBadgeAndTotal, benefit, clarity, riskDeps.
  rewrite obtained_insert by done. rewrite !(or_zero_insert_zero scores k) by done.
  by rewrite Z.add_0_r.
Qed.

(** The theorem at the mapping {Risk/Impact: 10, Dependencies: 10} and the
    criterion Title clarity. *)
Lemma zero_counts_as_absent_witness :
  calculateBadgeAndTotal
    (<["Title clarity":=0]> {[ "Risk/Impact" := 10; "Dependencies" := 10 ]})
  = {| total := 20; badge := Some RiskWrangler |}.
Proof.
  rewrite (zero_counts_as_absent {[ "Risk/Impact" := 10; "Dependencies" := 10 ]}
             "Title clarity"); by vm_compute.
Defined.

(* ===================================================================== *)
(** * More on the classification *)
(* ===================================================================== *)

Section ClassifyFacts.

Lemma length_list_ascii_of_string (s : string) :
  length (list_ascii_of_string s) = String.length s.
Proof. induction s as [|c s IH]; simpl; congruence. Qed.

Lemma length_string_of_list_ascii (l : list ascii) :
  String.length (string_of_list_ascii l) = length l.
Proof. induction l as [|c l IH]; simpl; congruence. Qed.

Lemma length_skip ps (l : list ascii) : (length (skip ps l) ≤ length l)%nat.
Proof.
  unfold skip. destruct (skip_fuel_suffix ps (length l) l) as [t Ht].
  apply (f_equal length) in Ht. rewrite length_app in Ht. lia.
Qed.

Lemma length_trim_bytes (l : list ascii) : (length (trim_bytes l) ≤ length l)%nat.
Proof.
  unfold trim_bytes, trimEnd_bytes, trimStart_bytes.
  rewrite length_rev.
  etrans; [apply length_skip|]. rewrite length_rev. apply length_skip.
Qed.

Lemma length_trim (s : string) : (String.length (trim s) ≤ String.length s)%nat.
Proof.
  unfold trim. rewrite length_string_of_list_ascii, <- length_list_ascii_of_string.
  apply length_trim_bytes.
Qed.

Lemma length_slice n (s : string) : (String.length (slice n s) ≤ String.length s)%nat.
Proof.
  revert s. induction n as [|n IH]; intros [|c s]; simpl; try lia.
  specialize (IH s). lia.
Qed.

(** The cleaned input is one of two things. *)
Lemma classify_cleaned (s : string) :
  (classify s).2 = trim (slice 6 (trim s)) ∨ (classify s).2 = trim s.
Proof.
  unfold classify.
  destruct (startsWith _ "draft:"); [by left|].
  destruct (startsWith _ "score:"); [by left|by right].
Qed.

End ClassifyFacts.

(** X9. An input whose trimmed, lower-cased form starts with "score:" is
    classified Score; its cleaned input is what follows the six characters
    of the prefix in the trimmed input, trimmed again. The six characters
    that are cut are the prefix in some mix of upper and lower case. *)
Theorem classify_score (s : string) :
  startsWith (toLowerCase (trim s)) "score:" = true →
  classify s = (Score, trim (slice 6 (trim s)))
  ∧ trim s = take 6 (trim s) +:+ slice 6 (trim s)
  ∧ String.length (take 6 (trim s)) = 6%nat
  ∧ toLowerCase (take 6 (trim s)) = "score:".
Proof.
  intros Hscore. destruct (startsWith_lower _ _ Hscore) as [Hlower Hlen].
  split; [|split; [|split]].
  - unfold classify. rewrite Hscore.
    destruct (startsWith (toLowerCase (trim s)) "draft:") eqn:Hdraft; [|done].
    apply startsWith_lower in Hdraft as [Hd _]. cbn [String.length] in *.
    rewrite Hlower in Hd. discriminate Hd.
  - by rewrite take_slice.
  - by apply length_take.
  - exact Hlower.
Qed.

(** The theorem at " SCORE: Fix login ". *)
Lemma classify_score_witness :
  classify " SCORE: Fix login " = (Score, "Fix login").
Proof. exact (proj1 (classify_score " SCORE: Fix login " eq_refl)). Defined.

(** X10. In every mode the cleaned input has no white space at either end,
    is no longer than the input, and does not depend on white space around
    the input: the trimmed input is classified like the input itself. *)
Theorem cleaned_input_is_trimmed (s : string) :
  trim (classify s).2 = (classify s).2
  ∧ leading_space (classify s).2 = false
  ∧ trailing_space (classify s).2 = false
  ∧ (String.length (classify s).2 ≤ String.length s)%nat
  ∧ classify (trim s) = classify s.
Proof.
  split; [|split; [|split; [|split]]].
  - destruct (classify_cleaned s) as [-> | ->]; apply trim_idempotent.
  - destruct (classify_cleaned s) as [-> | ->]; apply trim_no_leading_space.
  - destruct (classify_cleaned s) as [-> | ->]; apply trim_no_trailing_space.
  - destruct (classify_cleaned s) as [-> | ->].
    + etrans; [apply length_trim|]. etrans; [apply length_slice|]. apply length_trim.
    + apply length_trim.
  - unfold classify. by rewrite trim_idempotent.
Qed.

(* ===================================================================== *)
(** * More on [sendMessage] *)
(* ===================================================================== *)

Section RunShape.

Variables (JSON_parse : string → option JsValue) (client : Payload → nat → Outcome).

Implicit Types (st : State) (events : list Event) (l : list Message).

(** The ways in which a run that passes the guard can end. *)
Lemma sendMessage_cases st st' events :
  trim (input st) ≠ EmptyString → isLoading st = false →
  sendMessage JSON_parse client st = Some (st', events) →
  let mode := (classify (input st)).1 in
  let cleaned := (classify (input st)).2 in
  let run :=
    chatWithRetry (client (completion_request (newMessages st mode cleaned))) 3 800 in
  ∃ shown cache' rest,
    st' = shows st mode cleaned shown cache'
    ∧ events = CacheGet cleaned :: rest
    ∧ ((cached_content (getCachedResult (jironautCache st) cleaned) = Some shown
        ∧ cache' = jironautCache st ∧ rest = [])
       ∨ (cached_content (getCachedResult (jironautCache st) cleaned) = None
          ∧ ∃ text, shown = Text text
              ∧ ((cache' = jironautCache st ∧ rest = run.2)
                 ∨ (cache' = <[cleaned := text]> (jironautCache st)
                    ∧ rest = run.2 ++ [CachePut cleaned text]
                    ∧ rescored_report text)))).
Proof.
  intros Hin%String.eqb_neq Hload. unfold sendMessage. rewrite Hin, Hload. cbn [orb].
  destruct (classify (input st)) as [mode cleaned]. cbv beta iota zeta. cbn [fst snd].
  destruct (cached_content _) as [shown|] eqn:Hread.
  { intros [= <- <-]. exists shown, (jironautCache st), [].
    split; [done|]. split; [done|]. by left. }
  destruct (chatWithRetry _ _ _) as [completion events0] eqn:Hrun. cbn [snd].
  assert (Hplain : ∀ text,
    Some (shows st mode cleaned (Text text) (jironautCache st), CacheGet cleaned :: events0)
    = Some (st', events) →
    ∃ shown cache' rest,
      st' = shows st mode cleaned shown cache'
      ∧ events = CacheGet cleaned :: rest
      ∧ ((None = Some shown ∧ cache' = jironautCache st ∧ rest = [])
         ∨ (None = (None : option Content)
            ∧ ∃ text, shown = Text text
                ∧ ((cache' = jironautCache st ∧ rest = events0)
                   ∨ (cache' = <[cleaned := text]> (jironautCache st)
                      ∧ rest = events0 ++ [CachePut cleaned text]
                      ∧ rescored_report text))))).
  { intros text [= <- <-]. exists (Text text), (jironautCache st), events0.
    split; [done|]. split; [done|]. right. split; [done|]. exists text.
    split; [done|]. by left. }
  destruct completion as [response|err|]; try apply Hplain.
  destruct (scored_branch _ _) as [[props scores]|] eqn:Hbranch; [|apply Hplain].
  apply scored_branch_Some in Hbranch as (Hparse & Hscores & _).
  destruct (as_scores scores) as [mapping|] eqn:Hview; [|done].
  intros [= <- <-].
  eexists (Text _), _, _. split; [reflexivity|]. split; [reflexivity|].
  right. split; [done|]. eexists. split; [reflexivity|]. right.
  split; [by apply setCachedResult_after_miss|]. split; [done|].
  by exists props, scores, mapping.
Qed.

Lemma filter_visible_idem l :
  filter (λ m, role m ≠ system) (filter (λ m, role m ≠ system) l)
  = filter (λ m, role m ≠ system) l.
Proof.
  induction l as [|m l IH]; [done|]. rewrite filter_cons.
  destruct (decide (role m ≠ system)) as [Hm|Hm]; [|done].
  rewrite filter_cons, decide_True by done. by rewrite IH.
Qed.

Lemma filter_system_visible l :
  filter (λ m, role m = system) (filter (λ m, role m ≠ system) l) = [].
Proof.
  induction l as [|m l IH]; [done|]. rewrite filter_cons.
  destruct (decide (role m ≠ system)) as [Hm|Hm]; [|done].
  by rewrite filter_cons, decide_False.
Qed.

(** The non-system messages of [newMessages], and its system messages. *)
Lemma newMessages_visible st mode cleaned :
  filter (λ m, role m ≠ system) (newMessages st mode cleaned)
  = filter (λ m, role m ≠ system) (messages st)
    ++ [ {| role := user;
            content := Text (modePrompt mode +:+ bytes [10; 10]%nat +:+ cleaned) |} ]
  ∧ filter (λ m, role m = system) (newMessages st mode cleaned)
    = [ {| role := system; content := Text (systemContent mode) |} ].
Proof.
  unfold newMessages. split.
  - rewrite filter_cons, decide_False by (simpl; by intros ?).
    rewrite filter_app, filter_visible_idem. done.
  - rewrite filter_cons, decide_True by done.
    rewrite filter_app, filter_system_visible. done.
Qed.

End RunShape.

Section RunFacts2.

Variables (JSON_parse : string → option JsValue) (client : Payload → nat → Outcome).

Implicit Types (st : State) (events : list Event).

Lemma delays_app events1 events2 :
  delays (events1 ++ events2) = delays events1 ++ delays events2.
Proof. apply omap_app. Qed.

(** The counts of a trace that begins with the cache read and may end with
    the cache write are the counts of the client's part. *)
Lemma counts_around key events (tail : list Event) :
  (tail = [] ∨ ∃ text, tail = [CachePut key text]) →
  calls (CacheGet key :: events ++ tail) = calls events
  ∧ total_wait (CacheGet key :: events ++ tail) = total_wait events.
Proof.
  unfold calls, total_wait.
  change (attempts (CacheGet key :: ?e)) with (attempts e).
  change (delays (CacheGet key :: ?e)) with (delays e).
  rewrite attempts_app, delays_app.
  intros [->|[text ->]]; cbn; by rewrite !app_nil_r.
Qed.

(** A run that the guard stops, or that passes it. *)
Lemma guard_cases st :
  (trim (input st) = EmptyString ∨ isLoading st = true)
  ∨ (trim (input st) ≠ EmptyString ∧ isLoading st = false).
Proof.
  destruct (decide (trim (input st) = EmptyString)); [by left; left|].
  destruct (isLoading st); [by left; right|by right].
Qed.



End RunFacts2.

(** X11. A run that passes the guard leaves a conversation that starts with
    one system message, the one of the mode, followed by the earlier
    messages without their system message, the request (the prompt of the
    mode, an empty line and the cleaned input) and the reply. It clears the
    input box and the loading flag. *)
Theorem run_appends_request_and_reply JSON_parse client st st' events :
  trim (input st) ≠ EmptyString → isLoading st = false →
  sendMessage JSON_parse client st = Some (st', events) →
  let mode := (classify (input st)).1 in
  let cleaned := (classify (input st)).2 in
  let instruction := {| role := system; content := Text (systemContent mode) |} in
  let request :=
    {| role := user;
       content := Text (modePrompt mode +:+ bytes [10; 10]%nat +:+ cleaned) |} in
  ∃ shown,
    messages st'
    = instruction :: filter (λ m, role m ≠ system) (messages st)
        ++ [request; reply shown]
    ∧ filter (λ m, role m = system) (messages st') = [instruction]
    ∧ filter (λ m, role m ≠ system) (messages st')
      = filter (λ m, role m ≠ system) (messages st) ++ [request; reply shown]
    ∧ input st' = EmptyString
    ∧ isLoading st' = false.
Proof.
  intros Hin Hload Hrun mode cleaned instruction request.
  destruct (sendMessage_cases _ _ _ _ _ Hin Hload Hrun)
    as (shown & cache' & rest & -> & _ & _).
  fold mode cleaned. exists shown. cbn [messages input isLoading shows].
  destruct (newMessages_visible st mode cleaned) as [Hvisible Hsystem].
  split; [|split; [|split; [|done]]].
  - unfold newMessages. cbn [app]. by rewrite <- app_assoc.
  - rewrite filter_app, Hsystem. done.
  - rewrite filter_app, Hvisible, <- app_assoc. done.
Qed.

(** The theorem at a second submission: the system message of the first
    run is replaced, not kept. *)
Lemma run_appends_request_and_reply_witness :
  ∃ shown,
    filter (λ m, role m = system)
      (messages (shows (setInput (shows (fresh "hello" ∅) Unsupported "hello"
                                    (Text "hi") ∅) "score: fix login")
                   Score "fix login" (Text "raw") ∅))
    = [ {| role := system; content := Text (systemContent Score) |} ]
    ∧ shown = Text "raw".
Proof.
  destruct (run_appends_request_and_reply (parse_known []) (answers "raw")
              (setInput (shows (fresh "hello" ∅) Unsupported "hello" (Text "hi") ∅)
                 "score: fix login")
              (shows (setInput (shows (fresh "hello" ∅) Unsupported "hello"
                                  (Text "hi") ∅) "score: fix login")
                 Score "fix login" (Text "raw") ∅)
              [CacheGet "fix login"; Create 0%nat])
    as (shown & Hall & Hsystem & _); [by vm_compute..|].
  exists shown. split; [exact Hsystem|].
  vm_compute in Hall. by injection Hall as ->.
Defined.

(** X12. A run makes at most 4 calls of the endpoint and waits at most 5600
    ms in all. Its first event is the cache read. After a truthy read
    nothing else happens; after a falsy read there is at least one call. A
    run writes to the store at most once, under the cleaned input, as its
    last event. *)
Theorem run_budget JSON_parse client st st' events :
  trim (input st) ≠ EmptyString → isLoading st = false →
  sendMessage JSON_parse client st = Some (st', events) →
  let cleaned := (classify (input st)).2 in
  (calls events ≤ 4)%nat
  ∧ 0 ≤ total_wait events ≤ 5600
  ∧ head events = Some (CacheGet cleaned)
  ∧ (is_Some (cached_content (getCachedResult (jironautCache st) cleaned)) →
     events = [CacheGet cleaned])
  ∧ (cached_content (getCachedResult (jironautCache st) cleaned) = None →
     (1 ≤ calls events)%nat)
  ∧ (writes events = []
     ∨ ∃ text, writes events = [(cleaned, text)]
               ∧ last events = Some (CachePut cleaned text)).
Proof.
  intros Hin Hload Hrun cleaned.
  destruct (sendMessage_cases _ _ _ _ _ Hin Hload Hrun)
    as (shown & cache' & rest & _ & -> & Hcase).
  fold cleaned in Hcase |- *.
  set (run := chatWithRetry _ 3 800) in Hcase.
  destruct (chatWithRetry_budget
              (client (completion_request
                         (newMessages st (classify (input st)).1 cleaned))) 3 800)
    as [Hcalls Hwait].
  specialize (Hwait ltac:(lia)). fold run in Hcalls, Hwait.
  assert (Hquiet : writes run.2 = []) by apply chatWithRetry_writes.
  destruct Hcase as [(Hread & _ & ->)|(Hread & text & _ & [(_ & ->)|(_ & -> & _)])].
  - rewrite Hread.
    split; [unfold calls; simpl; lia|]. split; [unfold total_wait; simpl; lia|].
    split; [done|]. split; [done|]. split; [by intros [=]|by left].
  - destruct (counts_around cleaned run.2 []) as [Hc Hw]; [by left|].
    rewrite app_nil_r in Hc, Hw. rewrite Hread, Hc, Hw.
    split; [lia|]. split; [lia|]. split; [done|].
    split; [by intros [? [=]]|]. split; [intros _; lia|].
    left. by change (writes (CacheGet cleaned :: ?e)) with (writes e).
  - destruct (counts_around cleaned run.2 [CachePut cleaned text]) as [Hc Hw];
      [right; by exists text|].
    rewrite Hread, Hc, Hw.
    split; [lia|]. split; [lia|]. split; [done|].
    split; [by intros [? [=]]|]. split; [intros _; lia|].
    right. exists text. split.
    + change (writes (CacheGet cleaned :: ?e)) with (writes e).
      by rewrite writes_app, Hquiet.
    + by rewrite app_comm_cons, last_snoc.
Qed.

(** The theorem at an endpoint that is always busy: 4 calls and 5600 ms. *)
Lemma run_budget_witness :
  (calls [CacheGet "hello"; Create 0; SetTimeout 800; Create 1; SetTimeout 1600;
          Create 2; SetTimeout 3200; Create 3] ≤ 4)%nat.
Proof.
  exact (proj1 (run_budget (parse_known []) (λ _, busy_429) (fresh "hello" ∅)
                  (shows (fresh "hello" ∅) Unsupported "hello" (Text hurry_text) ∅)
                  [CacheGet "hello"; Create 0; SetTimeout 800; Create 1;
                   SetTimeout 1600; Create 2; SetTimeout 3200; Create 3]%nat
                  ltac:(by vm_compute) eq_refl ltac:(by vm_compute))).
Defined.

(** X13. A run never removes an entry of the store and never changes an
    entry that holds a non-empty text; the only key whose entry it may
    change is the cleaned input. *)
Theorem store_only_grows JSON_parse client st st' events :
  sendMessage JSON_parse client st = Some (st', events) →
  (∀ k, k ≠ (classify (input st)).2 → jironautCache st' !! k = jironautCache st !! k)
  ∧ (∀ k text, jironautCache st !! k = Some text → text ≠ EmptyString →
               jironautCache st' !! k = Some text)
  ∧ (∀ k, is_Some (jironautCache st !! k) → is_Some (jironautCache st' !! k)).
Proof.
  intros Hrun. destruct (guard_cases st) as [Hstop|[Hin Hload]].
  { rewrite sendMessage_guarded in Hrun by done. by simplify_eq. }
  destruct (sendMessage_cases _ _ _ _ _ Hin Hload Hrun)
    as (shown & cache' & rest & -> & _ & Hcase).
  cbn [jironautCache shows].
  destruct Hcase as [(_ & -> & _)|(Hread & text & _ & [(-> & _)|(-> & _ & _)])];
    try done.
  split; [|split].
  - intros k Hk. by rewrite lookup_insert_ne.
  - intros k t Hown Ht.
    destruct (decide (k = (classify (input st)).2)) as [->|Hk];
      [|by rewrite lookup_insert_ne].
    unfold getCachedResult in Hread. rewrite Hown in Hread. simpl in Hread.
    by rewrite (proj2 (String.eqb_neq t EmptyString)) in Hread.
  - intros k Hown.
    destruct (decide (k = (classify (input st)).2)) as [->|Hk].
    + by rewrite lookup_insert_eq.
    + by rewrite lookup_insert_ne.
Qed.

(** The theorem at a scored run on a store that holds another report. *)
Lemma store_only_grows_witness :
  ∃ st' events,
    sendMessage (parse_known [risk_report]) (answers (JSON_stringify risk_report))
      (fresh "score: fix login" {[ "add SSO login" := "stored report" ]})
    = Some (st', events)
    ∧ jironautCache st' !! "add SSO login" = Some "stored report"
    ∧ is_Some (jironautCache st' !! "fix login").
Proof.
  destruct (sendMessage (parse_known [risk_report])
              (answers (JSON_stringify risk_report))
              (fresh "score: fix login" {[ "add SSO login" := "stored report" ]}))
    as [[st' events]|] eqn:Hrun; [|by vm_compute in Hrun].
  exists st', events. split; [done|]. split.
  - exact (proj1 (proj2 (store_only_grows _ _ _ _ _ Hrun))
             "add SSO login" "stored report" eq_refl ltac:(done)).
  - vm_compute in Hrun. injection Hrun as <- _.
    apply (bool_decide_unpack _). by vm_compute.
Defined.

(** X14. A run does nothing at all exactly when the input is blank or a
    request is under way: then the state stays as it is and nothing is
    called, not even the cache; any other run starts by reading the cache. *)
Theorem blank_or_busy_is_noop JSON_parse client st st' events :
  sendMessage JSON_parse client st = Some (st', events) →
  (events = [] ↔ trim (input st) = EmptyString ∨ isLoading st = true)
  ∧ (events = [] → st' = st).
Proof.
  intros Hrun. destruct (guard_cases st) as [Hstop|[Hin Hload]].
  - rewrite sendMessage_guarded in Hrun by done. simplify_eq. by split.
  - destruct (sendMessage_reads_cache _ _ _ _ _ Hin Hload Hrun) as [rest ->].
    split; [|done]. split; [done|]. intros [?|?]; [done|congruence].
Qed.

(** The theorem at an input of spaces only. *)
Lemma blank_or_busy_is_noop_witness :
  ([] = ([] : list Event)
   ↔ trim (input (fresh "   " ∅)) = EmptyString ∨ isLoading (fresh "   " ∅) = true).
Proof.
  exact (proj1 (blank_or_busy_is_noop (parse_known []) (answers "unused")
                  (fresh "   " ∅) (fresh "   " ∅) [] ltac:(by vm_compute))).
Defined.

Section Sessions.

Variable JSON_parse : string → option JsValue.


End Sessions.



(** X16. When the cleaned input names a member of [Object.prototype] and
    the store has no entry of its own for it, the run reads the inherited
    member as a hit: it shows that member, which is no text, and never calls
    the endpoint. *)
Theorem prototype_key_is_read_as_hit JSON_parse client st mode cleaned :
  trim (input st) ≠ EmptyString → isLoading st = false →
  classify (input st) = (mode, cleaned) →
  cleaned ∈ Object_prototype →
  jironautCache st !! cleaned = None →
  sendMessage JSON_parse client st
  = Some (shows st mode cleaned (Member cleaned) (jironautCache st), [CacheGet cleaned])
  ∧ calls [CacheGet cleaned] = 0%nat.
Proof.
  intros Hin Hload Hmode Hmember Hown. split; [|done].
  apply sendMessage_hit; try done.
  unfold getCachedResult. by rewrite Hown, bool_decide_eq_true_2.
Qed.

(** The theorem at "draft: constructor". *)
Lemma prototype_key_is_read_as_hit_witness :
  sendMessage (parse_known []) (answers "unused") (fresh "draft: constructor" ∅)
  = Some (shows (fresh "draft: constructor" ∅) Draft "constructor"
            (Member "constructor") ∅, [CacheGet "constructor"]).
Proof.
  destruct (prototype_key_is_read_as_hit (parse_known []) (answers "unused")
              (fresh "draft: constructor" ∅) Draft "constructor") as [H _];
    [by vm_compute..| |by vm_compute|exact H].
  apply (bool_decide_unpack _). by vm_compute.
Defined.

Section Rescoring.

Implicit Types (props : list (string * JsValue)) (k : string) (v : JsValue).

(** Setting a property to the value that it has changes nothing. *)
Lemma set_prop_same k v props : get_prop k props = Some v → set_prop k v props = props.
Proof.
  induction props as [|[k' v'] props IH]; simpl; [done|].
  destruct (String.eqb_spec k k') as [<-|Hne].
  - by intros [= ->].
  - intros H. by rewrite IH.
Qed.

Lemma with_score_idempotent props (result : ScoreResult) :
  with_score (with_score props result) result = with_score props result.
Proof.
  destruct (with_score_props props result) as (Htotal & Hbadge & _).
  unfold with_score at 1.
  by rewrite (set_prop_same "total" _ _ Htotal), (set_prop_same "badge" _ _ Hbadge).
Qed.

End Rescoring.

(** X17. Re-scoring is idempotent. The object that the scored branch
    serialises keeps its [scores], and putting total and badge into it once
    more gives the same object: an answer that already is a report of this
    program (for instance a stored one) goes through the scored branch
    unchanged. *)
Theorem rescoring_is_idempotent
    (props : list (string * JsValue)) (scores : JsValue) (mapping : gmap string Z) :
  get_prop "scores" props = Some scores →
  as_scores scores = Some mapping →
  let report := with_score props (calculateBadgeAndTotal mapping) in
  get_prop "scores" report = Some scores
  ∧ with_score report (calculateBadgeAndTotal mapping) = report
  ∧ ∀ JSON_parse,
      JSON_parse (JSON_stringify (JObj report)) = Some (JObj report) →
      scored_branch JSON_parse (JSON_stringify (JObj report)) = Some (report, scores).
Proof.
  intros Hscores Hview report.
  assert (Hkept : get_prop "scores" report = Some scores).
  { unfold report. destruct (with_score_props props (calculateBadgeAndTotal mapping))
      as (_ & _ & Hrest). by rewrite Hrest. }
  split; [done|]. split; [apply with_score_idempotent|].
  intros JSON_parse Hback. apply scored_branch_Some.
  split; [done|]. split; [done|]. by eapply as_scores_truthy.
Qed.

(** The theorem at the report with Risk/Impact 10 and Dependencies 10. *)
Lemma rescoring_is_idempotent_witness :
  with_score
    (with_score [("scores", JObj [("Risk/Impact", JNum 10); ("Dependencies", JNum 10)]);
                 ("total", JNum 95); ("note", JStr "ok")]
       (calculateBadgeAndTotal {[ "Risk/Impact" := 10; "Dependencies" := 10 ]}))
    (calculateBadgeAndTotal {[ "Risk/Impact" := 10; "Dependencies" := 10 ]})
  = [("scores", JObj [("Risk/Impact", JNum 10); ("Dependencies", JNum 10)]);
     ("total", JNum 20); ("note", JStr "ok"); ("badge", JStr RiskWrangler)].
Proof.
  destruct (rescoring_is_idempotent
              [("scores", JObj [("Risk/Impact", JNum 10); ("Dependencies", JNum 10)]);
               ("total", JNum 95); ("note", JStr "ok")]
              (JObj [("Risk/Impact", JNum 10); ("Dependencies", JNum 10)])
              {[ "Risk/Impact" := 10; "Dependencies" := 10 ]}) as (_ & H & _);
    [by vm_compute..|].
  rewrite H. by vm_compute.
Defined.

(* ===================================================================== *)
(** * The message list of the page *)
(* ===================================================================== *)




(** X19. A report of the scored branch, read back by the parser, is drawn
    with the total and the badge of the scorer; the colour of the total is
    green from 85, orange from 70 and red below. A report with the badge
    Feature Architect is always green. *)
Theorem report_is_drawn_with_scorer_total
    JSON_parse (props : list (string * JsValue)) (mapping : gmap string Z) :
  let result := calculateBadgeAndTotal mapping in
  let report := JObj (with_score props result) in
  JSON_parse (JSON_stringify report) = Some report →
  bubble JSON_parse (reply (Text (JSON_stringify report)))
  = Some (Report report (Some (JNum (total result)))
            (Some (if 85 <=? total result then green
                   else if 70 <=? total result then orange else red))
            (Some (match badge result with Some b => JStr b | None => JNull end)))
  ∧ (badge result = Some FeatureArchitect →
     scoreColor (Some (JNum (total result))) = Some green).
Proof.
  intros result report Hback.
  destruct (with_score_props props result) as (Htotal & Hbadge & _).
  split.
  - unfold bubble, reply. cbn [role content]. rewrite Hback. unfold report.
    cbn [own_prop]. rewrite Htotal, Hbadge. cbn [drawable valid_child andb].
    by destruct (badge result).
  - unfold result. rewrite badge_cases. cbn [scoreColor].
    destruct (15 <=? riskDeps mapping); [done|].
    destruct (30 <=? clarity mapping); [done|].
    destruct (85 <=? total (calculateBadgeAndTotal mapping)); [done|].
    by destruct (40 <=? benefit mapping).
Qed.

(** The theorem at the report with Risk/Impact 10 and Dependencies 10: the
    total 20 is red and the badge is Risk Wrangler. *)
Lemma report_is_drawn_with_scorer_total_witness :
  bubble
    (parse_known
       [JObj (with_score [("scores", JObj [("Risk/Impact", JNum 10);
                                           ("Dependencies", JNum 10)])]
                (calculateBadgeAndTotal {[ "Risk/Impact" := 10; "Dependencies" := 10 ]}))])
    (reply (Text (JSON_stringify
                    (JObj (with_score [("scores", JObj [("Risk/Impact", JNum 10);
                                                        ("Dependencies", JNum 10)])]
                             (calculateBadgeAndTotal
                                {[ "Risk/Impact" := 10; "Dependencies" := 10 ]}))))))
  = Some (Report
            (JObj [("scores", JObj [("Risk/Impact", JNum 10); ("Dependencies", JNum 10)]);
                   ("total", JNum 20); ("badge", JStr RiskWrangler)])
            (Some (JNum 20)) (Some red) (Some (JStr RiskWrangler))).
Proof.
  destruct (report_is_drawn_with_scorer_total
              (parse_known
                 [JObj (with_score [("scores", JObj [("Risk/Impact", JNum 10);
                                                     ("Dependencies", JNum 10)])]
                          (calculateBadgeAndTotal
                             {[ "Risk/Impact" := 10; "Dependencies" := 10 ]}))])
              [("scores", JObj [("Risk/Impact", JNum 10); ("Dependencies", JNum 10)])]
              {[ "Risk/Impact" := 10; "Dependencies" := 10 ]}) as [H _];
    [by vm_compute|].
  rewrite H. by vm_compute.
Defined.

(* ===================================================================== *)
(** * The credential *)
(* ===================================================================== *)

Section CredentialFacts.

Lemma usable_Some (v : option string) (key : string) :
  usable v = Some key → key ≠ EmptyString ∧ trim key = key ∧ usable (Some key) = Some key.
Proof.
  destruct v as [s|]; [|done]. unfold usable.
  destruct (String.eqb_spec (trim s) EmptyString) as [|Hne]; [done|].
  intros [= <-]. rewrite trim_idempotent.
  by rewrite (proj2 (String.eqb_neq (trim s) EmptyString)).
Qed.

Lemma getApiKey_Some (fromEnv fromStorage : option string) (key : string) :
  getApiKey fromEnv fromStorage = Some key →
  usable fromEnv = Some key ∨ (usable fromEnv = None ∧ usable fromStorage = Some key).
Proof.
  unfold getApiKey. destruct (usable fromEnv); [by left|].
  destruct (usable fromStorage); [by right|done].
Qed.

End CredentialFacts.


(** X21. A key that was resolved once is resolved again, to the same key
    and without the prompt, when the page is loaded again with the store as
    the first load left it. *)
Theorem resolved_key_is_remembered
    (fromEnv fromStorage entered entered' : option string) (key : string) :
  apiKey (startup fromEnv fromStorage entered) = Some key →
  startup fromEnv (OPENAI_API_KEY (startup fromEnv fromStorage entered)) entered'
  = {| apiKey := Some key;
       OPENAI_API_KEY := OPENAI_API_KEY (startup fromEnv fromStorage entered);
       prompted := false;
       reported_missing := false |}.
Proof.
  unfold startup at 1 3 4. unfold getApiKey.
  destruct (usable fromEnv) as [k1|] eqn:E1.
  { cbn. intros [= <-]. unfold startup, getApiKey. by rewrite E1. }
  destruct (usable fromStorage) as [k2|] eqn:E2.
  { cbn. intros [= <-]. unfold startup, getApiKey. by rewrite E1, E2. }
  destruct (usable entered) as [k3|] eqn:E3; [|done].
  cbn. intros [= <-]. unfold startup, getApiKey.
  destruct (usable_Some _ _ E3) as (_ & _ & ->). by rewrite E1.
Qed.

(** The theorem at a first load that prompts: the second load does not. *)
Lemma resolved_key_is_remembered_witness :
  startup None (OPENAI_API_KEY (startup None None (Some "  sk-test-1234  "))) None
  = {| apiKey := Some "sk-test-1234";
       OPENAI_API_KEY := Some "sk-test-1234";
       prompted := false;
       reported_missing := false |}.
Proof.
  exact (resolved_key_is_remembered None None (Some "  sk-test-1234  ") None
           "sk-test-1234" eq_refl).
Defined.


(* ===================================================================== *)
(** * White space at both ends *)
(* ===================================================================== *)

Section Runs.

Variable ps : list (list ascii).
Hypothesis nonempty : Forall (λ p, p ≠ []) ps.

Implicit Types (l u a q : list ascii).

Lemma drop_any_nil : drop_any ps [] = None.
Proof using nonempty.
  destruct (drop_any ps []) as [r|] eqn:E; [|done].
  destruct (drop_any_Some _ _ _ E) as (p & Hp & Heq).
  symmetry in Heq. apply app_eq_nil in Heq as [-> _].
  pose proof nonempty as Hne. by eapply Forall_forall in Hne.
Qed.

Lemma drop_any_shorter l r : drop_any ps l = Some r → (length r < length l)%nat.
Proof using nonempty.
  intros E. destruct (drop_any_Some _ _ _ E) as (p & Hp & ->).
  pose proof nonempty as Hne. eapply Forall_forall in Hne; [|done].
  rewrite length_app. destruct p; [done|]. simpl. lia.
Qed.

(** Any fuel that covers the length gives the same result. *)
Lemma skip_fuel_any n m l :
  (length l ≤ n)%nat → (length l ≤ m)%nat → skip_fuel ps n l = skip_fuel ps m l.
Proof using nonempty.
  revert m l. induction n as [|n IH]; intros m l Hn Hm.
  - destruct l; [|simpl in Hn; lia]. destruct m; simpl; [done|].
    by rewrite drop_any_nil.
  - destruct m as [|m].
    + destruct l; [|simpl in Hm; lia]. simpl. by rewrite drop_any_nil.
    + simpl. destruct (drop_any ps l) as [r|] eqn:E; [|done].
      apply drop_any_shorter in E. apply IH; lia.
Qed.

Lemma skip_fuel_enough n l : (length l ≤ n)%nat → skip_fuel ps n l = skip ps l.
Proof using nonempty. intros Hn. by apply skip_fuel_any. Qed.

Lemma run_of_app u1 u2 : run_of ps u1 → run_of ps u2 → run_of ps (u1 ++ u2).
Proof.
  induction 1 as [|q u Hq Hu IH]; [done|]. intros H2.
  rewrite <- app_assoc. by constructor; [|apply IH].
Qed.

Lemma run_of_one q : q ∈ ps → run_of ps q.
Proof. intros Hq. rewrite <- (app_nil_r q). by constructor; [|constructor]. Qed.

(** What [skip] removes is a run. *)
Lemma skip_fuel_run n l : ∃ u, run_of ps u ∧ l = u ++ skip_fuel ps n l.
Proof.
  revert l. induction n as [|n IH]; intros l; simpl; [exists []; by split; [constructor|]|].
  destruct (drop_any ps l) as [r|] eqn:E; [|exists []; by split; [constructor|]].
  destruct (drop_any_Some _ _ _ E) as (p & Hp & ->).
  destruct (IH r) as (u & Hu & Hr). exists (p ++ u).
  split; [by constructor|]. rewrite <- app_assoc. by f_equal.
Qed.

(** A run that starts with no sequence is empty. *)
Lemma run_of_clean u : run_of ps u → drop_any ps u = None → u = [].
Proof.
  destruct 1 as [|q u Hq Hu]; [done|]. intros Hclean.
  destruct (drop_any_starts ps q u Hq) as [r Hr]. congruence.
Qed.

Hypothesis unambiguous : prefix_free ps.

Lemma prefix_free_eq q1 q2 t1 t2 :
  q1 ∈ ps → q2 ∈ ps → q1 ++ t1 = q2 ++ t2 → q1 = q2 ∧ t1 = t2.
Proof using unambiguous.
  intros H1 H2 Heq.
  assert (Hpf : ∀ q q' t, q ∈ ps → q' ∈ ps → q' = q ++ t → t = []).
  { intros q q' t Hq Hq' ->. unfold prefix_free in unambiguous.
    rewrite Forall_forall in unambiguous. specialize (unambiguous q Hq).
    rewrite Forall_forall in unambiguous.
    apply (unambiguous (q ++ t) Hq'). apply drop_prefix_app. }
  destruct (app_eq_inv _ _ _ _ Heq) as [(k & -> & ->)|(k & -> & ->)].
  - rewrite (Hpf q2 (q2 ++ k) k) in * by done. by rewrite !app_nil_r.
  - rewrite (Hpf q1 (q1 ++ k) k) in * by done. by rewrite !app_nil_r.
Qed.

(** [skip] removes exactly a run that is followed by a clean rest. *)
Lemma skip_run u a : run_of ps u → drop_any ps a = None → skip ps (u ++ a) = a.
Proof using nonempty unambiguous.
  induction 1 as [|q u Hq Hu IH]; intros Hclean; [by apply skip_fixed|].
  unfold skip. rewrite <- app_assoc.
  destruct (drop_any_starts ps q (u ++ a) Hq) as [r Hr].
  destruct (drop_any_Some _ _ _ Hr) as (q' & Hq' & Heq).
  apply prefix_free_eq in Heq as [<- <-]; [|done..].
  pose proof nonempty as Hne. eapply Forall_forall in Hne; [|exact Hq].
  destruct q as [|c q]; [done|]. simpl length. cbn [skip_fuel].
  rewrite Hr. rewrite skip_fuel_enough; [by apply IH|].
  rewrite !length_app. lia.
Qed.

(** A byte that occurs in no sequence ends what [skip] removes. *)
Lemma skip_stops_at c l t :
  Forall (λ q, c ∉ q) ps → skip ps (l ++ c :: t) = skip ps l ++ c :: t.
Proof using nonempty unambiguous.
  intros Hc. destruct (skip_fuel_run (length l) l) as (u & Hu & Hl).
  fold (skip ps l) in Hl.
  assert (Hclean : drop_any ps (skip ps l) = None) by by apply skip_fuel_clean.
  rewrite Hl at 1. rewrite <- app_assoc. apply skip_run; [done|].
  destruct (drop_any ps (skip ps l ++ c :: t)) as [r|] eqn:E; [|done].
  destruct (drop_any_Some _ _ _ E) as (q & Hq & Heq).
  destruct (app_eq_inv _ _ _ _ Heq) as [(k & Hk & _)|(k & -> & Hk)].
  - destruct (drop_any_starts ps q k Hq) as [y Hy]. congruence.
  - destruct k as [|c' k].
    + destruct (drop_any_starts ps _ [] Hq) as [y Hy].
      rewrite !app_nil_r in Hy. congruence.
    + injection Hk as <- _. rewrite Forall_forall in Hc.
      destruct (Hc _ Hq). apply elem_of_app. right. by left.
Qed.

Lemma first_byte_in c q : q ∈ ps → head q = Some c → c ∈ first_bytes ps.
Proof. intros Hq Hc. unfold first_bytes. apply list_elem_of_omap. by exists q. Qed.

Lemma later_byte_in c q w t : q ∈ ps → q = w ++ c :: t → w ≠ [] → c ∈ later_bytes ps.
Proof.
  intros Hq -> Hw. unfold later_bytes. apply list_elem_of_In, in_flat_map.
  exists (w ++ c :: t). split; [by apply list_elem_of_In|].
  destruct w as [|b w]; [done|]. simpl. apply in_or_app. right. by left.
Qed.

(** A list that begins with a byte with which no sequence begins is kept. *)
Lemma drop_any_other_byte c l : c ∉ first_bytes ps → drop_any ps (c :: l) = None.
Proof using nonempty.
  intros Hc. destruct (drop_any ps (c :: l)) as [r|] eqn:E; [|done].
  destruct (drop_any_Some _ _ _ E) as (q & Hq & Heq).
  pose proof nonempty as Hne. eapply Forall_forall in Hne; [|exact Hq].
  destruct q as [|c' q]; [done|]. injection Heq as -> _.
  destruct Hc. by apply (first_byte_in c' (c' :: q)).
Qed.

Hypothesis separate : Forall (λ c, c ∉ first_bytes ps) (later_bytes ps).

Lemma first_not_later c : c ∈ first_bytes ps → c ∈ later_bytes ps → False.
Proof using separate.
  intros Hf Hl. rewrite Forall_forall in separate. by apply (separate c Hl).
Qed.

(** A run can be cut before a byte that begins a sequence. *)
Lemma run_of_cut u w c x :
  run_of ps u → u = w ++ c :: x → c ∈ first_bytes ps →
  run_of ps w ∧ run_of ps (c :: x).
Proof using separate nonempty.
  intros Hu. revert w. induction Hu as [|q u Hq Hu IH]; intros w Heq Hc.
  - by destruct w.
  - destruct (app_eq_inv _ _ _ _ Heq) as [(k & -> & Hk)|(k & -> & ->)].
    + destruct k as [|c' k].
      * rewrite app_nil_r in Hq. simpl in Hk. subst u.
        split; [by apply run_of_one|done].
      * simpl in Hk. injection Hk as -> ->.
        destruct w as [|b w].
        -- split; [constructor|]. by apply (run_cons ps (c' :: k)).
        -- destruct (first_not_later c' Hc).
           by apply (later_byte_in c' ((b :: w) ++ c' :: k) (b :: w) k).
    + destruct (IH k eq_refl Hc) as [Hk Hx].
      split; [by constructor|done].
Qed.

End Runs.

Lemma run_of_rev ps u : run_of ps u → run_of (map (@rev ascii) ps) (rev u).
Proof.
  induction 1 as [|q u Hq Hu IH]; [constructor|].
  rewrite rev_app_distr. apply run_of_app; [done|].
  apply run_of_one, list_elem_of_fmap. by exists q.
Qed.

Lemma rev_rev_map (ps : list (list ascii)) : map (@rev ascii) (map (@rev ascii) ps) = ps.
Proof.
  rewrite map_map. rewrite <- (map_id ps) at 2. apply map_ext, rev_involutive.
Qed.

Lemma run_of_rev_inv ps t : run_of (map (@rev ascii) ps) t → run_of ps (rev t).
Proof. intros H%run_of_rev. by rewrite rev_rev_map in H. Qed.

Lemma prefix_free_check ps :
  forallb (λ q1, forallb (λ q2,
    match drop_prefix q1 q2 with Some (_ :: _) => false | _ => true end) ps) ps = true →
  prefix_free ps.
Proof.
  intros H. unfold prefix_free. rewrite forallb_forall in H.
  apply Forall_forall. intros q1 H1%list_elem_of_In%H.
  rewrite forallb_forall in H1.
  apply Forall_forall. intros q2 H2%list_elem_of_In%H1 t Ht.
  rewrite Ht in H2. by destruct t.
Qed.

Section BothEnds.

Variable ps : list (list ascii).
Hypothesis nonempty : Forall (λ p, p ≠ []) ps.
Hypothesis unambiguous : prefix_free ps.
Hypothesis unambiguous_rev : prefix_free (map (@rev ascii) ps).
Hypothesis separate : Forall (λ c, c ∉ first_bytes ps) (later_bytes ps).

Local Abbreviation rs := (map (@rev ascii) ps).

Implicit Types (l u m v : list ascii).

Lemma rev_nonempty : Forall (λ p, p ≠ []) rs.
Proof using nonempty.
  apply Forall_forall. intros q (p & -> & Hp)%list_elem_of_fmap Hq.
  pose proof nonempty as Hne. eapply Forall_forall in Hne; [|exact Hp].
  apply Hne. by rewrite <- (rev_involutive p), Hq.
Qed.

(** What is removed at the end is a run. *)
Lemma skip_end_run l : ∃ v, run_of ps v ∧ l = rev (skip rs (rev l)) ++ v.
Proof.
  destruct (skip_fuel_run rs (length (rev l)) (rev l)) as (u & Hu & Hl).
  fold (skip rs (rev l)) in Hl. exists (rev u).
  split; [by apply run_of_rev_inv|].
  by rewrite <- rev_app_distr, <- Hl, rev_involutive.
Qed.

(** A run that is followed by something ends with a full sequence: no
    sequence begins in the run and ends after it. *)
Lemma no_straddle u m :
  run_of ps u → m ≠ [] → drop_any rs (rev m) = None →
  drop_any rs (rev m ++ rev u) = None.
Proof using nonempty unambiguous separate.
  intros Hu Hm Hclean.
  destruct (drop_any rs (rev m ++ rev u)) as [r|] eqn:E; [|done].
  destruct (drop_any_Some _ _ _ E) as (q' & Hq' & Heq).
  destruct (app_eq_inv _ _ _ _ Heq) as [(k & Hk & _)|(k & Hk & Hr)].
  - destruct (drop_any_starts rs q' k Hq') as [y Hy]. congruence.
  - apply list_elem_of_fmap in Hq' as (q & -> & Hq).
    assert (Hq2 : q = rev k ++ m).
    { by rewrite <- (rev_involutive q), Hk, rev_app_distr, rev_involutive. }
    assert (Hu2 : u = rev r ++ rev k).
    { by rewrite <- (rev_involutive u), Hr, rev_app_distr. }
    destruct (rev k) as [|c x] eqn:Ek.
    + simpl in Hq2. subst m.
      destruct (drop_any_starts rs (rev q) [] (proj2 (list_elem_of_fmap _ _ _) (ex_intro _ q (conj eq_refl Hq)))) as [y Hy].
      rewrite app_nil_r in Hy. congruence.
    + assert (Hc : c ∈ first_bytes ps) by (apply (first_byte_in ps c q Hq); by subst q).
      destruct (run_of_cut ps nonempty separate u (rev r) c x Hu Hu2 Hc) as [_ Hx].
      inversion Hx as [|q2 t Hq2' Ht Hqt]; subst.
      destruct (prefix_free_eq ps unambiguous q2 (q2 ++ t ++ m) (t ++ m) [] Hq2') as [_ Htm].
      * by rewrite <- Hqt, <- app_assoc in Hq.
      * by rewrite app_nil_r.
      * by apply app_eq_nil in Htm as [_ ->].
Qed.

(** Removing at the end first, and then at both ends, gives what removing
    at both ends gives. *)
Lemma skip_both_after_end l :
  rev (skip rs (rev (skip ps (rev (skip rs (rev l)))))) = rev (skip rs (rev (skip ps l))).
Proof using nonempty unambiguous unambiguous_rev separate.
  pose proof rev_nonempty as Hrne.
  destruct (skip_fuel_run ps (length l) l) as (u & Hu & Hl).
  fold (skip ps l) in Hl.
  assert (Ha : drop_any ps (skip ps l) = None) by by apply skip_fuel_clean.
  destruct (skip_end_run (skip ps l)) as (v & Hv & Hav).
  assert (Hme : drop_any rs (rev (rev (skip rs (rev (skip ps l))))) = None).
  { rewrite rev_involutive. by apply skip_fuel_clean. }
  remember (rev (skip rs (rev (skip ps l)))) as m eqn:Em. clear Em.
  remember (skip ps l) as a eqn:Ea. clear Ea. subst a.
  assert (Hms : drop_any ps m = None) by by apply (drop_any_None_prefix _ _ v).
  destruct (decide (m = [])) as [->|Hm].
  - simpl in Hl.
    assert (Hrun : run_of ps l) by (subst l; by apply run_of_app).
    destruct (skip_end_run l) as (v2 & Hv2 & Hl2).
    assert (Hbe : drop_any rs (rev (rev (skip rs (rev l)))) = None).
    { rewrite rev_involutive. by apply skip_fuel_clean. }
    remember (rev (skip rs (rev l))) as b eqn:Eb. clear Eb.
    assert (Hb : run_of ps b).
    { destruct v2 as [|c x]; [by rewrite app_nil_r in Hl2; subst b|].
      assert (Hc : c ∈ first_bytes ps).
      { inversion Hv2 as [|q t Hq Ht Hqt].
        pose proof nonempty as Hne. eapply Forall_forall in Hne; [|exact Hq].
        destruct q as [|c' q]; [done|]. injection Hqt as -> _.
        by apply (first_byte_in ps c (c :: q)). }
      by destruct (run_of_cut ps nonempty separate l b c x Hrun Hl2 Hc). }
    apply run_of_rev in Hb. apply run_of_clean in Hb; [|done].
    rewrite <- (rev_involutive b), Hb. done.
  - assert (Hend : rev (skip rs (rev l)) = u ++ m).
    { rewrite Hl, !rev_app_distr, <- app_assoc.
      rewrite (skip_run rs Hrne unambiguous_rev).
      - by rewrite rev_app_distr, !rev_involutive.
      - by apply run_of_rev.
      - by apply no_straddle. }
    rewrite Hend. rewrite (skip_run ps nonempty unambiguous) by done.
    rewrite skip_fixed by done. apply rev_involutive.
Qed.

End BothEnds.

Lemma white_space_prefix_free : prefix_free white_space.
Proof. apply prefix_free_check. by vm_compute. Qed.

Lemma rev_white_space_prefix_free : prefix_free (map (@rev ascii) white_space).
Proof. apply prefix_free_check. by vm_compute. Qed.

Lemma white_space_separate :
  Forall (λ c, c ∉ first_bytes white_space) (later_bytes white_space).
Proof. apply (bool_decide_unpack _). by vm_compute. Qed.

(** Trimming the end first changes nothing of what [trim] gives. *)
Lemma trim_bytes_trimEnd l : trim_bytes (trimEnd_bytes l) = trim_bytes l.
Proof.
  apply skip_both_after_end.
  - apply white_space_nonempty.
  - apply white_space_prefix_free.
  - apply rev_white_space_prefix_free.
  - apply white_space_separate.
Qed.

(* ===================================================================== *)
(** * The mode prefix in any case and with any spacing *)
(* ===================================================================== *)

Lemma list_ascii_of_string_app s t :
  list_ascii_of_string (s +:+ t) = list_ascii_of_string s ++ list_ascii_of_string t.
Proof. induction s as [|c s IH]; simpl; [done|]. by rewrite IH. Qed.

Lemma string_of_list_ascii_app l k :
  string_of_list_ascii (l ++ k) = string_of_list_ascii l +:+ string_of_list_ascii k.
Proof. induction l as [|c l IH]; simpl; [done|]. by rewrite IH. Qed.

Lemma toLowerCase_app s t : toLowerCase (s +:+ t) = toLowerCase s +:+ toLowerCase t.
Proof. induction s as [|c s IH]; simpl; [done|]. by rewrite IH. Qed.

(** The bytes that begin a white space character have no lower-case form
    of their own. *)
Lemma lower_char_first_byte c : c ∈ first_bytes white_space → lower_char c = c.
Proof.
  intros Hc. vm_compute in Hc.
  repeat (apply elem_of_cons in Hc as [->|Hc]; [by vm_compute|]).
  by apply elem_of_nil in Hc.
Qed.

Lemma lower_char_colon c : lower_char c = ":"%char → c = ":"%char.
Proof. destruct c as [[] [] [] [] [] [] [] []]; vm_compute; congruence. Qed.

Lemma colon_in_no_white_space :
  Forall (λ q, ":"%char ∉ q) (map (@rev ascii) white_space).
Proof. apply (bool_decide_unpack _). by vm_compute. Qed.

(** A text that begins with a byte that begins no white space character, and
    that is followed by a colon, keeps everything up to the colon when it is
    trimmed, and loses what [trimEnd] removes after it. *)
Lemma trim_bytes_after_colon c l x :
  c ∉ first_bytes white_space →
  trim_bytes ((c :: l ++ [":"%char]) ++ x) = (c :: l ++ [":"%char]) ++ trimEnd_bytes x.
Proof.
  intros Hc. unfold trim_bytes, trimStart_bytes.
  rewrite skip_fixed
    by (rewrite <- app_comm_cons;
        by apply drop_any_other_byte; [apply white_space_nonempty|]).
  unfold trimEnd_bytes. rewrite rev_app_distr.
  replace (rev (c :: l ++ [":"%char])) with (":"%char :: rev (c :: l))
    by (by rewrite app_comm_cons, rev_app_distr).
  rewrite skip_stops_at.
  - rewrite rev_app_distr. f_equal.
    change (":"%char :: rev (c :: l)) with (rev [":"%char] ++ rev (c :: l)).
    by rewrite <- rev_app_distr, rev_involutive, <- app_comm_cons.
  - apply rev_white_space_nonempty.
  - apply rev_white_space_prefix_free.
  - apply colon_in_no_white_space.
Qed.

(** The texts that the prefix test of either mode accepts. *)
Lemma mode_prefix_shape p t1 t2 t3 t4 t5 :
  toLowerCase p = String t1 (String t2 (String t3 (String t4 (String t5 ":")))) →
  ∃ c l, list_ascii_of_string p = c :: l ++ [":"%char]
         ∧ lower_char c = t1 ∧ String.length p = 6%nat.
Proof.
  destruct p as [|c1 [|c2 [|c3 [|c4 [|c5 [|c6 [|c7 p]]]]]]]; try done.
  simpl. intros [= H1 _ _ _ _ H6]. apply lower_char_colon in H6 as ->.
  by exists c1, [c2; c3; c4; c5].
Qed.

Lemma slice_app p y : slice (String.length p) (p +:+ y) = y.
Proof. induction p as [|c p IH]; [by destruct y|done]. Qed.

Lemma trim_after_mode_prefix p x t1 t2 t3 t4 t5 :
  toLowerCase p = String t1 (String t2 (String t3 (String t4 (String t5 ":")))) →
  t1 ∉ first_bytes white_space →
  trim (p +:+ x) = p +:+ trimEnd x.
Proof.
  intros (c & l & Hp & Hc & _)%mode_prefix_shape Ht.
  unfold trim, trimEnd. rewrite list_ascii_of_string_app, Hp.
  rewrite trim_bytes_after_colon.
  - by rewrite string_of_list_ascii_app, <- Hp, string_of_list_ascii_of_string.
  - intros Hin. apply Ht. by rewrite <- Hc, lower_char_first_byte.
Qed.

Lemma trim_trimEnd x : trim (trimEnd x) = trim x.
Proof.
  unfold trim, trimEnd. rewrite list_ascii_of_string_of_list_ascii.
  by rewrite trim_bytes_trimEnd.
Qed.

Lemma startsWith_draft y : startsWith ("draft:" +:+ y) "draft:" = true.
Proof. by destruct y. Qed.

Lemma startsWith_score y :
  startsWith ("score:" +:+ y) "draft:" = false
  ∧ startsWith ("score:" +:+ y) "score:" = true.
Proof. by destruct y. Qed.

Lemma trim_prefixed mode p x :
  (mode, toLowerCase p) ∈ [(Draft, "draft:"); (Score, "score:")] →
  trim (p +:+ x) = p +:+ trimEnd x ∧ String.length p = 6%nat.
Proof.
  intros Hin.
  apply elem_of_cons in Hin as [[= -> Hp]|Hin];
    [|apply elem_of_cons in Hin as [[= -> Hp]|Hin]; [|by apply elem_of_nil in Hin]].
  - split; [|by apply mode_prefix_shape in Hp as (? & ? & ? & ? & ?)].
    eapply trim_after_mode_prefix; [exact Hp|].
    apply (bool_decide_unpack _). by vm_compute.
  - split; [|by apply mode_prefix_shape in Hp as (? & ? & ? & ? & ?)].
    eapply trim_after_mode_prefix; [exact Hp|].
    apply (bool_decide_unpack _). by vm_compute.
Qed.

Lemma classify_prefixed mode p x :
  (mode, toLowerCase p) ∈ [(Draft, "draft:"); (Score, "score:")] →
  classify (p +:+ x) = (mode, trim x).
Proof.
  intros Hin. unfold classify.
  destruct (trim_prefixed mode p x Hin) as [Htrim Hlen].
  rewrite Htrim, toLowerCase_app.
  assert (Hslice : slice 6 (p +:+ trimEnd x) = trimEnd x)
    by (rewrite <- Hlen; apply slice_app).
  rewrite Hslice, trim_trimEnd.
  apply elem_of_cons in Hin as [[= -> Hp]|Hin];
    [by rewrite Hp, startsWith_draft|].
  apply elem_of_cons in Hin as [[= -> Hp]|Hin];
    [by rewrite Hp, (proj1 (startsWith_score _)), (proj2 (startsWith_score _))|].
  by apply elem_of_nil in Hin.
Qed.

Lemma trim_prefixed_nonempty mode p x :
  (mode, toLowerCase p) ∈ [(Draft, "draft:"); (Score, "score:")] →
  trim (p +:+ x) ≠ EmptyString.
Proof.
  intros Hin. destruct (trim_prefixed mode p x Hin) as [Htrim Hlen].
  rewrite Htrim. by destruct p.
Qed.

(** X22. However the letters of the mode prefix are cased, and whatever white
    space follows the prefix or the text, the run takes the mode of the
    prefix and keeps the trimmed text after it. The prefix passes the guard
    of [sendMessage] whatever follows it, also when the text after it is
    empty or blank: the cleaned input is then the empty text. *)
Theorem mode_prefix_in_any_case mode p x :
  (mode, toLowerCase p) ∈ [(Draft, "draft:"); (Score, "score:")] →
  classify (p +:+ x) = (mode, trim x)
  ∧ trim (p +:+ x) = p +:+ trimEnd x
  ∧ trim (p +:+ x) ≠ EmptyString.
Proof.
  intros Hin. destruct (trim_prefixed mode p x Hin) as [Htrim _].
  split; [by apply classify_prefixed|]. split; [done|].
  by apply (trim_prefixed_nonempty mode).
Qed.

(** The theorem at a prefix in mixed case, followed by a space and a tab and
    a text that ends with spaces, and at a prefix followed by spaces only. *)
Lemma mode_prefix_in_any_case_witness :
  classify ("DrAfT: " +:+ bytes [9%nat] +:+ "add SSO login  ") = (Draft, "add SSO login")
  ∧ classify "SCORE:   " = (Score, EmptyString)
  ∧ trim "SCORE:   " = "SCORE:".
Proof.
  destruct (mode_prefix_in_any_case Draft "DrAfT:"
              (" " +:+ bytes [9%nat] +:+ "add SSO login  ")) as (H1 & _ & _);
    [apply (bool_decide_unpack _); by vm_compute|].
  destruct (mode_prefix_in_any_case Score "SCORE:" "   ") as (H2 & H3 & _);
    [apply (bool_decide_unpack _); by vm_compute|].
  split; [exact H1|]. split; [exact H2|exact H3].
Defined.

(** X23. The store is keyed by the text after the prefix, not by the mode: a
    report that a run has stored answers every later submission of a text that
    trims to the same text, under either prefix and in any case, without a
    call to the client; a draft request for a scored ticket is answered with
    the score report. *)
Theorem report_is_shared_between_modes
    JSON_parse client JSON_parse' client' st st1 events1 k text st2
    mode1 mode2 p1 p2 x1 x2 :
  (mode1, toLowerCase p1) ∈ [(Draft, "draft:"); (Score, "score:")] →
  (mode2, toLowerCase p2) ∈ [(Draft, "draft:"); (Score, "score:")] →
  trim x1 = trim x2 →
  input st = p1 +:+ x1 →
  sendMessage JSON_parse client st = Some (st1, events1) →
  (k, text) ∈ writes events1 →
  jironautCache st2 = jironautCache st1 → isLoading st2 = false →
  input st2 = p2 +:+ x2 →
  k = trim x1
  ∧ sendMessage JSON_parse' client' st2
    = Some (shows st2 mode2 k (Text text) (jironautCache st2), [CacheGet k])
  ∧ calls [CacheGet k] = 0%nat.
Proof.
  intros H1 H2 Hx Hin1 Hrun Hwrite Hcache Hload Hin2.
  assert (Hk : k = trim x1).
  { destruct (sendMessage_write_inv _ _ _ _ _ _ _ Hrun Hwrite)
      as (mode & _ & _ & _ & _ & Hmode & _).
    rewrite Hin1, (classify_prefixed mode1 p1 x1 H1) in Hmode. congruence. }
  split; [done|]. split; [|done].
  eapply sendMessage_twice; try done.
  - rewrite Hin2. by apply (trim_prefixed_nonempty mode2).
  - rewrite Hin2, Hk, Hx. by apply classify_prefixed.
Qed.

(** The theorem at a ticket that is scored and then submitted for a draft. *)
Lemma report_is_shared_between_modes_witness :
  ∃ st1 events1 text,
    sendMessage (parse_known [risk_report]) (answers (JSON_stringify risk_report))
      (fresh "score: fix login" ∅) = Some (st1, events1)
    ∧ writes events1 = [("fix login", text)]
    ∧ sendMessage (parse_known []) (fails {| message := None; status := None |})
        (setInput st1 "DRAFT:fix login  ")
      = Some (shows (setInput st1 "DRAFT:fix login  ") Draft "fix login" (Text text)
                (jironautCache st1),
              [CacheGet "fix login"]).
Proof.
  do 3 eexists. split; [by vm_compute|]. split; [by vm_compute|].
  match goal with
  | |- sendMessage ?P' ?C' (setInput ?st1 _) = Some (shows _ _ _ (Text ?text) _, _) =>
      destruct (report_is_shared_between_modes
                  (parse_known [risk_report]) (answers (JSON_stringify risk_report))
                  P' C' (fresh "score: fix login" ∅) st1
                  [CacheGet "fix login"; Create 0; CachePut "fix login" text]
                  "fix login" text (setInput st1 "DRAFT:fix login  ")
                  Score Draft "score:" "DRAFT:" " fix login" "fix login  ")
        as (_ & H & _)
  end;
    [apply (bool_decide_unpack _); by vm_compute
    |apply (bool_decide_unpack _); by vm_compute
    |by vm_compute|by vm_compute|by vm_compute
    |apply (bool_decide_unpack _); by vm_compute
    |by vm_compute|by vm_compute|by vm_compute
    |exact H].
Defined.
